(** * mongoist: bulk batch accumulator, lazy cursor adapter and collection

    A shallow embedding of [lib/bulk.ts], [lib/cursor.ts] and
    [lib/collection.ts].  JavaScript
    objects that the code shares and mutates (the [Command] instances held
    both in [Bulk.cmds] and in [Bulk.currentCmd], the [Cursor] instances
    behind the setters installed on [Cursor.prototype]) live in an explicit
    object store and are named by their index in it. *)

From Stdlib Require Import ZArith Ascii String Lia.
From stdpp Require Import base option list strings pretty gmap.

Local Open Scope string_scope.
Local Open Scope list_scope.
Local Open Scope Z_scope.

(** ** JavaScript values *)

Module js.

Inductive value : Type :=
  | undefined
  | null
  | boolean (b : bool)
  | number (z : Z)
  | NaN
  | str (s : string)
  | oid (n : nat)          (* an ObjectId instance *)
  | obj (ref : nat).      (* any other object or array, named by its identity *)

(** ToBoolean. *)
Definition truthy (v : value) : bool :=
  match v with
  | undefined | null | NaN => false
  | boolean b => b
  | number z => negb (z =? 0)
  | str s => negb (String.eqb s EmptyString)
  | oid _ | obj _ => true
  end.

(** [a || b]. *)
Definition or (a b : value) : value := if truthy a then a else b.

(** What a promise settles to. *)
Inductive outcome (A : Type) : Type :=
  | Resolved (a : A)
  | Rejected (err : value).
Arguments Resolved {A} a.
Arguments Rejected {A} err.

Definition TypeError : value := str "TypeError".

End js.

(** ** bulk.ts *)

Definition MAX_BULK_SIZE : nat := 1000.

(** The three shapes pushed onto a command's bulk collection:
    [doc], [{ q, u, multi, upsert }] and [{ q, limit }]. *)
Inductive Operation : Type :=
  | OpInsert (doc : gmap string js.value)
  | OpUpdate (q u : js.value) (multi upsert : bool)
  | OpDelete (q : js.value) (limit : Z).

Module Command.

Record t : Type := mk {
  ordered : bool;
  writeConcern : js.value;
  cmdNames : gmap string string;
  bulkCollections : gmap string (list Operation)
}.

(** [new Command(ordered, writeConcern)]. *)
Definition new (ordered : bool) (writeConcern : js.value) : t :=
  mk ordered writeConcern ∅ ∅.

Definition setCmdName (cmdName colName : string) (c : t) : t :=
  mk (ordered c) (writeConcern c) (<[cmdName := colName]> (cmdNames c))
     (bulkCollections c).

Definition setBulkCollection (bulkCollection : string) (c : t) : t :=
  mk (ordered c) (writeConcern c) (cmdNames c)
     (<[bulkCollection := []]> (bulkCollections c)).

(** [undefined] is [None].  (The names looked up are those the callers
    give, 'insert', 'update', 'delete' and 'documents', 'updates',
    'deletes'; none of them is found through [Object.prototype].) *)
Definition getCmdName (cmdName : string) (c : t) : option string :=
  cmdNames c !! cmdName.

Definition getBulkCollection (bulkCollection : string) (c : t)
  : option (list Operation) :=
  bulkCollections c !! bulkCollection.

(** [cmd.getBulkCollection(name).push(item)]; [None] is the TypeError of
    calling [push] on [undefined]. *)
Definition push (bulkCollection : string) (item : Operation) (c : t) : option t :=
  match getBulkCollection bulkCollection c with
  | Some l =>
      Some (mk (ordered c) (writeConcern c) (cmdNames c)
               (<[bulkCollection := l ++ [item]]> (bulkCollections c)))
  | None => None
  end.

(** [Object.keys(cmd)]: the own enumerable properties of a [Command]
    instance, in creation order.  The class declares [ordered],
    [writeConcern], [cmdNames], [bulkCollections]; the constructor assigns the
    first two, the last two have initializers.  With class-field "define"
    semantics every declared field is created in declaration order before the
    constructor body runs; otherwise the initialized fields are created first
    and the constructor's assignments follow. *)
Definition keys (useDefineForClassFields : bool) (c : t) : list string :=
  if useDefineForClassFields
  then ["ordered"; "writeConcern"; "cmdNames"; "bulkCollections"]
  else ["cmdNames"; "bulkCollections"; "ordered"; "writeConcern"].

(** Truthiness of the property read [cmd[name]] on a [Command] instance:
    its own fields, then the four methods of the class; any other name (an
    [Object.prototype] member aside) reads as [undefined].  The command name
    and the bulk collection are not properties of the instance: they are kept
    inside [cmdNames] and [bulkCollections]. *)
Definition truthy_prop (name : string) (c : t) : bool :=
  if String.eqb name "ordered" then ordered c
  else if String.eqb name "writeConcern" then js.truthy (writeConcern c)
  else bool_decide (name ∈ ["cmdNames"; "bulkCollections"; "setCmdName";
                            "setBulkCollection"; "getCmdName";
                            "getBulkCollection"]).

End Command.

(** What the store reports for one command: [{ n, writeErrors?, upserted? }]. *)
Module CommandResult.

Record t : Type := mk {
  n : Z;
  writeErrors : option (list js.value);
  upserted : option (list js.value)
}.

End CommandResult.

(** The result object that [execute] builds and resolves to. *)
Module Result.

Record t : Type := mk {
  writeErrors : list js.value;
  writeConcernErrors : list js.value;
  nInserted : Z;
  nUpserted : Z;
  nMatched : Z;
  nModified : Z;
  nRemoved : Z;
  upserted : list js.value;
  undefined_ : js.value;   (* the property named "undefined"; [js.undefined] while absent *)
  ok : js.value            (* [js.undefined] until [result.ok = 1] *)
}.

(** The object literal at the head of [execute]. *)
Definition init : t := mk [] [] 0 0 0 0 0 [] js.undefined js.undefined.

Definition set_ok (v : js.value) (r : t) : t :=
  mk (writeErrors r) (writeConcernErrors r) (nInserted r) (nUpserted r)
     (nMatched r) (nModified r) (nRemoved r) (upserted r) (undefined_ r) v.

Definition push_writeErrors (l : list js.value) (r : t) : t :=
  mk (writeErrors r ++ l) (writeConcernErrors r) (nInserted r) (nUpserted r)
     (nMatched r) (nModified r) (nRemoved r) (upserted r) (undefined_ r) (ok r).

End Result.

(** The environment of the closures [{ update, upsert, remove }] that
    [Bulk.find] builds: the predicate [q] and the variable [upsert]. *)
Record FindSyntaxCmds : Type := mkFindSyntaxCmds {
  q : js.value;
  upsert : bool
}.

Module Bulk.

(** The values of [cmdKeys]. *)
Inductive countKey : Type := nInserted | nRemoved | nUpserted.

(** [this.cmdKeys[k]]; [None] is [undefined]. *)
Definition cmdKeys (k : string) : option countKey :=
  if String.eqb k "insert" then Some nInserted
  else if String.eqb k "delete" then Some nRemoved
  else if String.eqb k "update" then Some nUpserted
  else None.

(** [result[key] += n].  When [key] is [undefined] the property touched is
    the one named "undefined": [undefined + n], and later [NaN + n], are
    [NaN]. *)
Definition add (key : option countKey) (n : Z) (r : Result.t) : Result.t :=
  match key with
  | Some nInserted =>
      Result.mk (Result.writeErrors r) (Result.writeConcernErrors r)
        (Result.nInserted r + n) (Result.nUpserted r) (Result.nMatched r)
        (Result.nModified r) (Result.nRemoved r) (Result.upserted r)
        (Result.undefined_ r) (Result.ok r)
  | Some nRemoved =>
      Result.mk (Result.writeErrors r) (Result.writeConcernErrors r)
        (Result.nInserted r) (Result.nUpserted r) (Result.nMatched r)
        (Result.nModified r) (Result.nRemoved r + n) (Result.upserted r)
        (Result.undefined_ r) (Result.ok r)
  | Some nUpserted =>
      Result.mk (Result.writeErrors r) (Result.writeConcernErrors r)
        (Result.nInserted r) (Result.nUpserted r + n) (Result.nMatched r)
        (Result.nModified r) (Result.nRemoved r) (Result.upserted r)
        (Result.undefined_ r) (Result.ok r)
  | None =>
      Result.mk (Result.writeErrors r) (Result.writeConcernErrors r)
        (Result.nInserted r) (Result.nUpserted r) (Result.nMatched r)
        (Result.nModified r) (Result.nRemoved r) (Result.upserted r)
        js.NaN (Result.ok r)
  end.

(** A [Bulk] instance.  [heap] holds the [Command] objects created so far;
    [cmds] and [currentCmd] hold references (indices) into it, so that a
    command pushed onto [cmds] while it is still the current one is one
    object under two names.  [connect] is the caller's closure and is given
    to [execute] as what it settles to. *)
Record t : Type := mk {
  colName : string;
  ordered : bool;
  writeConcern : js.value;
  cmds : list nat;
  currentCmd : option nat;
  heap : list Command.t
}.

(** The default [{ w: 1 }]. *)
Definition w1 : js.value := js.obj 0.

(** [new Bulk(colName, ordered, connect, opts)], [wc] being
    [opts.writeConcern] of the defaulted [opts]. *)
Definition new (colName : string) (ordered : bool) (wc : js.value) : t :=
  mk colName ordered (js.or wc w1) [] None [].

Definition set_cmds (l : list nat) (b : t) : t :=
  mk (colName b) (ordered b) (writeConcern b) l (currentCmd b) (heap b).

Definition set_currentCmd (c : option nat) (b : t) : t :=
  mk (colName b) (ordered b) (writeConcern b) (cmds b) c (heap b).

Definition set_heap (h : list Command.t) (b : t) : t :=
  mk (colName b) (ordered b) (writeConcern b) (cmds b) (currentCmd b) h.

(** Truthiness of what [getCmdName] returns: a collection name, or
    [undefined]. *)
Definition truthy_name (o : option string) : bool :=
  match o with
  | Some s => js.truthy (js.str s)
  | None => false
  end.

(** The second conjunct of the first test of [ensureCommand]:
    [!cmd.getCmdName(cmdName) ||
     cmd.getBulkCollection(bulkCollection).length === MAX_BULK_SIZE].
    [None] is the TypeError of reading [length] of [undefined]. *)
Definition must_flush (cmdName bulkCollection : string) (c : Command.t)
  : option bool :=
  if negb (truthy_name (Command.getCmdName cmdName c)) then Some true
  else match Command.getBulkCollection bulkCollection c with
       | Some l => Some (Nat.eqb (length l) MAX_BULK_SIZE)
       | None => None
       end.

(** [ensureCommand(cmdName, bulkCollection)]: the reference returned and the
    new state; [None] when the call throws.  (A reference read from [cmds]
    or [currentCmd] always names an allocated object, see [wf]; the model
    gives [None] for a dangling one.) *)
Definition ensureCommand (cmdName bulkCollection : string) (b : t)
  : option (nat * t) :=
  b1 ← match currentCmd b with
       | Some r =>
           c ← heap b !! r;
           f ← must_flush cmdName bulkCollection c;
           Some (if f : bool
                 then set_currentCmd None (set_cmds (cmds b ++ [r]) b)
                 else b)
       | None => Some b
       end;
  match currentCmd b1 with
  | Some r => Some (r, b1)
  | None =>
      let r := length (heap b1) in
      let c := Command.setBulkCollection bulkCollection
                 (Command.setCmdName cmdName (colName b1)
                    (Command.new (ordered b1) (writeConcern b1))) in
      Some (r, set_currentCmd (Some r) (set_heap (heap b1 ++ [c]) b1))
  end.

(** [cmd.getBulkCollection(name).push(item)] on the object [r]. *)
Definition push (r : nat) (bulkCollection : string) (item : Operation) (b : t)
  : option t :=
  c ← heap b !! r;
  c' ← Command.push bulkCollection item c;
  Some (set_heap (<[r := c']> (heap b)) b).

(** The closures [remove] and [update] that [find(q)] hands to the
    [FindSyntax]; [upsert] is the value of the captured variable at the call. *)
Definition find_remove (q : js.value) (limit : Z) (b : t) : option t :=
  '(r, b1) ← ensureCommand "delete" "deletes" b;
  push r "deletes" (OpDelete q limit) b1.

Definition find_update (q : js.value) (upsert : bool) (u : js.value)
    (multi : bool) (b : t) : option t :=
  '(r, b1) ← ensureCommand "update" "updates" b;
  push r "updates" (OpUpdate q u multi upsert) b1.

Definition find (q : js.value) : FindSyntaxCmds := mkFindSyntaxCmds q false.

(** [doc._id = doc._id || new ObjectId()], [fresh] being the identifier a
    [new ObjectId()] would carry. *)
Definition with_id (fresh : nat) (doc : gmap string js.value)
  : gmap string js.value :=
  <["_id" := js.or (default js.undefined (doc !! "_id")) (js.oid fresh)]> doc.

Definition insert (fresh : nat) (doc : gmap string js.value) (b : t)
  : option t :=
  '(r, b1) ← ensureCommand "insert" "documents" b;
  push r "documents" (OpInsert (with_id fresh doc)) b1.

Definition pushCurrentCmd (b : t) : t :=
  match currentCmd b with
  | Some r => set_cmds (cmds b ++ [r]) b
  | None => b
  end.

(** The objects that [this.cmds] lists. *)
Definition commands (b : t) : list Command.t :=
  omap (fun r => heap b !! r) (cmds b).

(** [setResult(cmd, cmdResult)] of [execute]. *)
Definition setResult (useDefineForClassFields : bool) (cmd : Command.t)
    (cmdResult : CommandResult.t) (result : Result.t) : Result.t :=
  let cmdKey := head (Command.keys useDefineForClassFields cmd) in
  let result1 := add (cmdKey ≫= cmdKeys) (CommandResult.n cmdResult) result in
  match CommandResult.writeErrors cmdResult with
  | Some writeErrors => Result.push_writeErrors writeErrors result1
  | None => result1
  end.

(** What one run of [execute] leaves behind. *)
Record run (Store : Type) : Type := mkRun {
  settled : js.outcome Result.t;   (* what the returned promise settles to *)
  result : Result.t;               (* the result object, as last written *)
  log : list (Command.t * js.outcome CommandResult.t);
                                   (* each command given to [connection.command],
                                      with what came back, in order *)
  store : option Store;            (* the store afterwards, when a connection was had *)
  after : t                        (* the instance afterwards *)
}.
Arguments mkRun {Store}.
Arguments settled {Store}.
Arguments result {Store}.
Arguments log {Store}.
Arguments store {Store}.
Arguments after {Store}.

(** The commands submitted, in order. *)
Definition sent {Store} (r : run Store) : list Command.t := (log r).*1.

Section execute.

(** The store connection: [connection.command(cmd)] settles to a result or
    is rejected, and may change the store. *)
Context {Store : Type}.
Variable command : Command.t -> Store -> js.outcome CommandResult.t * Store.
Variable useDefineForClassFields : bool.

(** [each(cmds, executeCmd, idx)] with
    [executeCmd = cmd => connection.command(cmd).then(r => setResult(cmd, r))];
    the list is [cmds] from [idx] on.  Returns what the promise settles to,
    the store, the result object and the exchanges with the store. *)
Fixpoint each (cmds : list Command.t) (s : Store) (result : Result.t)
    (log : list (Command.t * js.outcome CommandResult.t))
  : js.outcome unit * Store * Result.t *
    list (Command.t * js.outcome CommandResult.t) :=
  match cmds with
  | [] => (js.Resolved tt, s, result, log)
  | cmd :: rest =>
      match command cmd s with
      | (js.Resolved cmdResult, s') =>
          each rest s' (setResult useDefineForClassFields cmd cmdResult result)
               (log ++ [(cmd, js.Resolved cmdResult)])
      | (js.Rejected err, s') =>
          (js.Rejected err, s', result, log ++ [(cmd, js.Rejected err)])
      end
  end.

(** [execute()], given what [this.connect()] settles to ([None] is a [null]
    connection: [connection.command] then throws, when it is reached). *)
Definition execute (connect : js.outcome (option Store)) (b : t) : run Store :=
  let b1 := pushCurrentCmd b in
  match connect with
  | js.Rejected err => mkRun (js.Rejected err) Result.init [] None b1
  | js.Resolved None =>
      match commands b1 with
      | [] => mkRun (js.Resolved (Result.set_ok (js.number 1) Result.init))
                    (Result.set_ok (js.number 1) Result.init) [] None b1
      | _ :: _ => mkRun (js.Rejected js.TypeError) Result.init [] None b1
      end
  | js.Resolved (Some s) =>
      match each (commands b1) s Result.init [] with
      | (js.Resolved _, s', result, log) =>
          mkRun (js.Resolved (Result.set_ok (js.number 1) result))
                (Result.set_ok (js.number 1) result) log (Some s') b1
      | (js.Rejected err, s', result, log) =>
          mkRun (js.Rejected err) result log (Some s') b1
      end
  end.

End execute.

(** The object that [tojson] returns. *)
Record stats : Type := mkStats {
  nInsertOps : nat;
  nUpdateOps : nat;
  nRemoveOps : nat;
  nBatches : nat
}.

(** The body of the [forEach] of [tojson] for one command.  The lengths read
    are those of [cmd.updates], [cmd.documents], [cmd.deletes]; a [Command]
    instance has no such property, so a branch that is entered throws
    ([None]). *)
Definition tojson_step (obj : option stats) (cmd : Command.t) : option stats :=
  o ← obj;
  if Command.truthy_prop "update" cmd then None
  else if Command.truthy_prop "insert" cmd then None
  else if Command.truthy_prop "delete" cmd then None
  else Some o.

(** [tojson()]: the object returned and the instance afterwards. *)
Definition tojson (b : t) : option stats * t :=
  let b1 := match currentCmd b with
            | Some r => set_cmds (cmds b ++ [r]) b
            | None => b
            end in
  let obj := mkStats 0 0 0 (length (cmds b1)) in
  (fold_left tojson_step (commands b1) (Some obj), b1).

(** [JSON.stringify] of the object of [tojson]. *)
Definition member (name : string) (v : nat) : string :=
  String "034"%char
    (String.append name (String "034"%char (String ":"%char (pretty v)))).

Definition stringify (o : stats) : string :=
  String.append "{"
   (String.append (member "nInsertOps" (nInsertOps o))
   (String.append ","
   (String.append (member "nUpdateOps" (nUpdateOps o))
   (String.append ","
   (String.append (member "nRemoveOps" (nRemoveOps o))
   (String.append ","
   (String.append (member "nBatches" (nBatches o)) "}"))))))).

Definition toString (b : t) : option string * t :=
  let '(o, b1) := tojson b in (stringify <$> o, b1).

(** *** [each], one callback at a time

    The same [each], at the grain of the event loop: the store settles the
    promise of a submitted command whenever it pleases, and only then do the
    callbacks chained on it run. *)

Inductive event : Type :=
  | Submit (idx : nat)      (* [connection.command(cmds[idx])] is called *)
  | Response (idx : nat)    (* its promise is settled by the store *)
  | Merge (idx : nat).      (* [setResult(cmds[idx], cmdResult)] has run *)

Record exec : Type := mkExec {
  pending : list nat;       (* the submitted commands not answered yet *)
  merged : Result.t;        (* the result object *)
  history : list event;
  outcome : option (js.outcome unit)
                            (* what the promise of [each(cmds, f)] settled to, once it has *)
}.

(** The synchronous part of [each(cmds, executeCmd, idx)]: below
    [cmds.length] it calls [executeCmd(cmds[idx])], which submits the
    command, and chains the rest on the promise; otherwise it resolves. *)
Definition call_each (cmds : list Command.t) (idx : nat) (e : exec) : exec :=
  if (idx <? length cmds)%nat
  then mkExec (pending e ++ [idx]) (merged e) (history e ++ [Submit idx])
              (outcome e)
  else mkExec (pending e) (merged e) (history e) (Some (js.Resolved tt)).

(** [each(this.cmds, ...)] as [execute] calls it. *)
Definition start (cmds : list Command.t) : exec :=
  call_each cmds 0 (mkExec [] Result.init [] None).

(** The store settles the promise of the pending command [idx].  On a
    result the two callbacks run in turn:
    [cmdResult => setResult(cmd, cmdResult)], then
    [() => each(cmds, executeCmd, idx + 1)]; on a rejection neither runs and
    the chain is rejected.  [None] when [idx] is not pending. *)
Definition settle (useDefineForClassFields : bool) (cmds : list Command.t)
    (idx : nat) (reply : js.outcome CommandResult.t) (e : exec) : option exec :=
  if bool_decide (idx ∈ pending e) then
    cmd ← cmds !! idx;
    let e1 := mkExec (filter (fun j => j <> idx) (pending e)) (merged e)
                     (history e ++ [Response idx]) (outcome e) in
    match reply with
    | js.Resolved cmdResult =>
        Some (call_each cmds (S idx)
                (mkExec (pending e1)
                        (setResult useDefineForClassFields cmd cmdResult
                                   (merged e1))
                        (history e1 ++ [Merge idx]) (outcome e1)))
    | js.Rejected err =>
        Some (mkExec (pending e1) (merged e1) (history e1)
                     (Some (js.Rejected err)))
    end
  else None.

(** A schedule: which pending command the store answers next, and how. *)
Fixpoint settle_all (useDefineForClassFields : bool) (cmds : list Command.t)
    (replies : list (nat * js.outcome CommandResult.t)) (e : exec)
  : option exec :=
  match replies with
  | [] => Some e
  | (idx, reply) :: rest =>
      e' ← settle useDefineForClassFields cmds idx reply e;
      settle_all useDefineForClassFields cmds rest e'
  end.

End Bulk.

(** The class [FindSyntax]; each method runs the closures of [Bulk.find] on
    the instance they captured. *)
Module FindSyntax.

Definition remove (f : FindSyntaxCmds) (b : Bulk.t) : option Bulk.t :=
  Bulk.find_remove (q f) 0 b.

Definition removeOne (f : FindSyntaxCmds) (b : Bulk.t) : option Bulk.t :=
  Bulk.find_remove (q f) 1 b.

Definition update (updObj : js.value) (f : FindSyntaxCmds) (b : Bulk.t)
  : option Bulk.t :=
  Bulk.find_update (q f) (upsert f) updObj true b.

Definition updateOne (updObj : js.value) (f : FindSyntaxCmds) (b : Bulk.t)
  : option Bulk.t :=
  Bulk.find_update (q f) (upsert f) updObj false b.

Definition replaceOne (updObj : js.value) (f : FindSyntaxCmds) (b : Bulk.t)
  : option Bulk.t :=
  updateOne updObj f b.

(** [upsert()] sets the captured variable and returns the builder. *)
Definition upsert (f : FindSyntaxCmds) : FindSyntaxCmds :=
  mkFindSyntaxCmds (q f) true.

End FindSyntax.

(** ** cursor.ts *)

(** The names in [operations], for which the constructor installs a
    setter. *)
Inductive operation : Type :=
  | batchSize | hint | limit | maxTimeMS | max | min | skip | snapshot
  | sort | collation.

#[global] Instance operation_eq_dec : EqDecision operation.
Proof. solve_decision. Defined.

(** The driver's [FindCursor], as far as [Cursor] uses it.  A handle is a
    mutable object; its methods are given as functions of its state.
    [h_apply key data] is the call [cursor[key](data)] and yields the
    cursor that the call returns; [None] is a throw.  [Flag] is the type of
    the names of the driver's cursor flags. *)
Class FindCursor (H Flag : Type) : Type := {
  h_apply : operation -> js.value -> H -> option H;
  h_addCursorFlag : Flag -> js.value -> H -> option H;
  h_on_close : H -> H;
  h_closed : H -> bool;
  h_killed : H -> bool;
  h_next : H -> js.outcome js.value * H;
  h_hasNext : H -> js.outcome bool * H;
  h_close : H -> js.outcome unit * H;
  h_toArray : H -> js.outcome (list js.value) * H;
  h_count : list (operation * js.value) -> H -> js.outcome Z * H;
  h_explain : H -> js.outcome js.value * H;
  h_rewind : H -> js.outcome unit * H
}.

(** A plain object whose keys are listed in insertion order:
    [o[k] = v] and [Object.keys(o)]. *)
Fixpoint assign {K V} `{EqDecision K} (k : K) (v : V) (o : list (K * V))
  : list (K * V) :=
  match o with
  | [] => [(k, v)]
  | (k', v') :: o' =>
      if decide (k' = k) then (k, v) :: o' else (k', v') :: assign k v o'
  end.

(** The methods are run one after the other: the promise of a call has
    settled before the next call is made. *)
Module Cursor.

Section with_driver.

Context {H Flag : Type} `{EqDecision Flag} `{FindCursor H Flag}.

(** A [Cursor] instance.  [cursorFactory k] is what the call number [k] of
    the caller's factory settles to ([None] being [undefined], the
    connection that could not be had); [factoryCalls] counts the calls made. *)
Record t : Type := mk {
  cursorFactory : nat -> js.outcome (option H);
  factoryCalls : nat;
  _options : list (operation * js.value);
  _flags : list (Flag * js.value);
  cursor : option H
}.

(** The [Cursor] instances created so far, and the instance whose
    constructor ran last: its [this] is the one that the ten arrow functions
    now installed on [Cursor.prototype] close over. *)
Record world : Type := mkWorld {
  instances : list t;
  prototype : option nat
}.

Definition update (this : nat) (c : t) (w : world) : world :=
  mkWorld (<[this := c]> (instances w)) (prototype w).

(** [new Cursor(cursorFactory)]. *)
Definition new (factory : nat -> js.outcome (option H)) (w : world)
  : nat * world :=
  let this := length (instances w) in
  (this, mkWorld (instances w ++ [mk factory 0 [] [] None]) (Some this)).

(** [receiver[operation](data)], for one of the ten names.  The function
    found is the arrow function on [Cursor.prototype]: it writes to, and
    returns, the [this] of the constructor that installed it, whatever the
    receiver.  [None] when no instance exists. *)
Definition setter (operation : operation) (data : js.value) (receiver : nat)
    (w : world) : option (nat * world) :=
  this ← prototype w;
  c ← instances w !! this;
  Some (this,
        update this (mk (cursorFactory c) (factoryCalls c)
                        (assign operation data (_options c)) (_flags c)
                        (cursor c)) w).

Definition addCursorFlag (flag : Flag) (value : js.value) (this : nat)
    (w : world) : option (nat * world) :=
  c ← instances w !! this;
  Some (this,
        update this (mk (cursorFactory c) (factoryCalls c) (_options c)
                        (assign flag value (_flags c)) (cursor c)) w).

(** The two [forEach] loops of [getCursor]. *)
Fixpoint apply_options (o : list (operation * js.value)) (cursor : H)
  : option H :=
  match o with
  | [] => Some cursor
  | (key, data) :: o' =>
      cursor' ← h_apply key data cursor; apply_options o' cursor'
  end.

Fixpoint add_flags (o : list (Flag * js.value)) (cursor : H) : option H :=
  match o with
  | [] => Some cursor
  | (key, value) :: o' =>
      cursor' ← h_addCursorFlag key value cursor; add_flags o' cursor'
  end.

(** [getCursor()]: what the promise settles to, and the world afterwards.
    A throw inside the [then] callback (a method of [undefined], a setter
    that throws) rejects the promise before [this.cursor] is assigned; which
    error it is rejected with is not tracked. *)
Definition getCursor (this : nat) (w : world) : js.outcome H * world :=
  match instances w !! this with
  | None => (js.Rejected js.TypeError, w)
  | Some c =>
      match cursor c with
      | Some h => (js.Resolved h, w)
      | None =>
          let called := mk (cursorFactory c) (S (factoryCalls c)) (_options c)
                           (_flags c) None in
          match cursorFactory c (factoryCalls c) with
          | js.Rejected err => (js.Rejected err, update this called w)
          | js.Resolved None => (js.Rejected js.TypeError, update this called w)
          | js.Resolved (Some h0) =>
              match apply_options (_options c) h0 ≫= add_flags (_flags c) with
              | None => (js.Rejected js.TypeError, update this called w)
              | Some h2 =>
                  let h3 := h_on_close h2 in
                  (js.Resolved h3,
                   update this
                     (mk (cursorFactory c) (S (factoryCalls c)) (_options c)
                         (_flags c) (Some h3)) w)
              end
          end
      end
  end.

(** [this.getCursor().then(cursor => f(cursor))], [f] being a use of the
    handle, which it may change. *)
Definition then_ {A} (f : t -> H -> js.outcome A * H) (this : nat) (w : world)
  : js.outcome A * world :=
  match getCursor this w with
  | (js.Rejected err, w1) => (js.Rejected err, w1)
  | (js.Resolved h, w1) =>
      match instances w1 !! this with
      | None => (js.Rejected js.TypeError, w1)
      | Some c =>
          let '(a, h') := f c h in
          (a, update this (mk (cursorFactory c) (factoryCalls c) (_options c)
                              (_flags c) (Some h')) w1)
      end
  end.

Definition count : nat -> world -> js.outcome Z * world :=
  then_ (fun this cursor => h_count (_options this) cursor).

Definition size : nat -> world -> js.outcome Z * world :=
  then_ (fun this cursor => h_count (_options this) cursor).

Definition explain : nat -> world -> js.outcome js.value * world :=
  then_ (fun _ cursor => h_explain cursor).

Definition close : nat -> world -> js.outcome unit * world :=
  then_ (fun _ cursor => h_close cursor).

Definition destroy : nat -> world -> js.outcome unit * world := close.

Definition next : nat -> world -> js.outcome js.value * world :=
  then_ (fun _ cursor =>
           if h_closed cursor || h_killed cursor
           then (js.Resolved js.null, cursor)
           else h_next cursor).

Definition hasNext : nat -> world -> js.outcome bool * world :=
  then_ (fun _ cursor =>
           if negb (h_closed cursor) then h_hasNext cursor
           else (js.Resolved false, cursor)).

Definition rewind : nat -> world -> js.outcome unit * world :=
  then_ (fun _ cursor => h_rewind cursor).

Definition toArray : nat -> world -> js.outcome (list js.value) * world :=
  then_ (fun _ cursor => h_toArray cursor).

End with_driver.

(** What a promise that nobody rejects comes to: it settles, or it stays
    pending for ever. *)
Inductive promise (A : Type) : Type :=
  | Settled (o : js.outcome A)
  | Pending.
Arguments Settled {A} o.
Arguments Pending {A}.

Section loops.

Context {H Flag : Type} `{EqDecision Flag} `{FindCursor H Flag}.

(** The [loop] of [map(fn)], [result] being the array so far.  The promise
    is made with [new Promise((resolve) => ...)]: it is resolved when [next]
    yields a falsy document, and nothing rejects it, so that a rejection of
    [next], or a throw of [fn] inside the [then] callback, leaves it
    pending.  [setImmediate(loop)] runs the loop again; [fuel] bounds the
    number of rounds, and [None] is a loop still running when it is spent. *)
Fixpoint map_loop {B} (fuel : nat) (fn : js.value -> js.outcome B)
    (result : list B) (this : nat) (w : @world H Flag)
  : option (promise (list B) * @world H Flag) :=
  match fuel with
  | O => None
  | S fuel' =>
      match next this w with
      | (js.Rejected _, w1) => Some (Pending, w1)
      | (js.Resolved doc, w1) =>
          if negb (js.truthy doc) then Some (Settled (js.Resolved result), w1)
          else match fn doc with
               | js.Rejected _ => Some (Pending, w1)
               | js.Resolved x => map_loop fuel' fn (result ++ [x]) this w1
               end
      end
  end.

Definition map {B} (fuel : nat) (fn : js.value -> js.outcome B)
  : nat -> @world H Flag -> option (promise (list B) * @world H Flag) :=
  map_loop fuel fn [].

(** The [loop] of [forEach(fn)]; [seen] lists the documents that [fn] has
    been called on. *)
Fixpoint forEach_loop (fuel : nat) (fn : js.value -> js.outcome unit)
    (seen : list js.value) (this : nat) (w : @world H Flag)
  : option (promise js.value * list js.value * @world H Flag) :=
  match fuel with
  | O => None
  | S fuel' =>
      match next this w with
      | (js.Rejected _, w1) => Some (Pending, seen, w1)
      | (js.Resolved doc, w1) =>
          if negb (js.truthy doc)
          then Some (Settled (js.Resolved js.undefined), seen, w1)
          else match fn doc with
               | js.Rejected _ => Some (Pending, seen ++ [doc], w1)
               | js.Resolved _ => forEach_loop fuel' fn (seen ++ [doc]) this w1
               end
      end
  end.

Definition forEach (fuel : nat) (fn : js.value -> js.outcome unit)
  : nat -> @world H Flag
    -> option (promise js.value * list js.value * @world H Flag) :=
  forEach_loop fuel fn [].

End loops.

End Cursor.

(** ** collection.ts *)

(** A plain object read and written by key: a document, an options object
    or a result of the driver. *)
Abbreviation object := (gmap string js.value).

(** [o.k] and [o?.k], [None] being an [o] that is [undefined]. *)
Definition get (k : string) (o : option object) : js.value :=
  default js.undefined (o ≫= fun m => m !! k).

(** The first argument of the driver's updates and deletes: the caller's
    query, or the [{ _id: id }] that [save] builds. *)
Inductive selector : Type :=
  | Selector (query : js.value)
  | ById (id : js.value).

(** Their second argument: the caller's update, or the [{ $set: doc }]
    that [save] builds. *)
Inductive modifier : Type :=
  | Modifier (update : js.value)
  | SetDoc (doc : object).

(** The driver's collection as [Collection] uses it; [M] is its state and
    [H] the cursors it hands out. *)
Class MongoCollection (M H : Type) := {
  m_find : js.value -> object -> M -> H;
  m_aggregate : list js.value -> object -> M -> H;
  m_countDocuments : js.value -> M -> js.outcome Z * M;
  m_insertOne : object -> object -> M -> js.outcome unit * M;
  m_insertMany : list object -> object -> M -> js.outcome unit * M;
  m_updateOne : selector -> modifier -> object -> M -> js.outcome object * M;
  m_updateMany : selector -> modifier -> object -> M -> js.outcome object * M;
  m_deleteOne : js.value -> object -> M -> js.outcome object * M;
  m_deleteMany : js.value -> object -> M -> js.outcome object * M;
  m_rename : string -> option object -> M -> js.outcome js.value * M;
  m_isCapped : M -> js.outcome bool * M
}.

Module Collection.

(** The [{ w: 1 }] of [writeOpts]. *)
Definition w1 : js.value := js.obj 0.

Definition writeOpts : object :=
  {[ "writeConcern" := w1; "ordered" := js.boolean true ]}.

(** [Object.assign(target, opts)] and [{ ...target, ...opts }]: the keys of
    [opts] win; an [opts] that is [undefined] adds nothing. *)
Definition assign_ (target : object) (opts : option object) : object :=
  default ∅ opts ∪ target.

(** [opts || {}]. *)
Definition or_empty (opts : option object) : object := default ∅ opts.

(** [if (!doc._id) doc._id = new ObjectId()], [fresh] being the identifier
    that a [new ObjectId()] would carry. *)
Definition with_id (fresh : nat) (doc : object) : object :=
  if negb (js.truthy (get "_id" (Some doc)))
  then <["_id" := js.oid fresh]> doc
  else doc.

(** The loop of [insertMany] over the array [docs] of references into
    [heap]; the identifiers made are [fresh], [fresh + 1], ... *)
Fixpoint with_ids (fresh : nat) (docs : list nat) (heap : list object)
  : list object :=
  match docs with
  | [] => heap
  | r :: docs' =>
      if negb (js.truthy (get "_id" (heap !! r)))
      then with_ids (S fresh) docs'
                    (alter (fun doc => <["_id" := js.oid fresh]> doc) r heap)
      else with_ids fresh docs' heap
  end.

(** [{ ...result, ok: result?.acknowledged, n: n }]. *)
Definition reshaped (result : option object) (n : js.value) : object :=
  <["n" := n]> (<["ok" := get "acknowledged" result]> (default ∅ result)).

(** The second argument of [remove]. *)
Inductive remove_opts : Type :=
  | NoOpts
  | JustOne (justOne : bool)
  | Opts (opts : object).

(** [opts = opts || { justOne: false }], and then
    [if (typeof opts == 'boolean') opts = { justOne: opts }]. *)
Definition justOne_opts (opts : remove_opts) : object :=
  match opts with
  | NoOpts | JustOne false => {[ "justOne" := js.boolean false ]}
  | JustOne true => {[ "justOne" := js.boolean true ]}
  | Opts o => o
  end.

(** The fourth argument of [new Bulk]. *)
Inductive bulk_opts : Type :=
  | BulkUndefined
  | BulkNull
  | BulkOpts (opts : object).

Section with_driver.

Context {M H Flag : Type} `{EqDecision Flag} `{FindCursor H Flag}
        `{MongoCollection M H}.

(** [this.connect().then(collection => f(collection))]: [conn] is what
    [this.connect()] settles to, [None] being the [undefined] of a
    connection that could not be had.  The result is what the chain
    settles to, and the driver's collection afterwards if there is one. *)
Definition then_ {A} (conn : js.outcome (option M))
    (f : option M -> js.outcome A * option M) : js.outcome A * option M :=
  match conn with
  | js.Rejected err => (js.Rejected err, None)
  | js.Resolved collection => f collection
  end.

(** [collection?.method(...)] followed by [.then(result => g(result))]. *)
Definition optional {R A} (collection : option M)
    (method : M -> js.outcome R * M) (g : option R -> A)
  : js.outcome A * option M :=
  match collection with
  | None => (js.Resolved (g None), None)
  | Some m =>
      match method m with
      | (js.Resolved r, m') => (js.Resolved (g (Some r)), Some m')
      | (js.Rejected err, m') => (js.Rejected err, Some m')
      end
  end.

Definition find (query projection : js.value) (opts : option object)
    (conn : js.outcome (option M))
  : js.outcome (option (list js.value)) * option M :=
  then_ conn (fun collection =>
    let options := assign_ {[ "projection" := projection ]} opts in
    optional collection
      (fun m => ((h_toArray (m_find query options m)).1, m)) id).

(** The factory that [findAsCursor] hands to [new Cursor]; [connect k] is
    what the call number [k] of [this.connect()] by this factory settles
    to. *)
Definition find_factory (query projection : js.value) (opts : option object)
    (connect : nat -> js.outcome (option M)) (k : nat)
  : js.outcome (option H) :=
  match connect k with
  | js.Rejected err => js.Rejected err
  | js.Resolved collection =>
      let options := assign_ {[ "projection" := projection ]} opts in
      js.Resolved (m_find query options <$> collection)
  end.

Definition findAsCursor (query projection : js.value) (opts : option object)
    (connect : nat -> js.outcome (option M)) (w : @Cursor.world H Flag)
  : nat * @Cursor.world H Flag :=
  Cursor.new (find_factory query projection opts connect) w.

Definition findOne (query projection : js.value) (opts : option object)
    (connect : nat -> js.outcome (option M)) (w : @Cursor.world H Flag)
  : js.outcome js.value * @Cursor.world H Flag :=
  let '(this, w1) := findAsCursor query projection opts connect w in
  Cursor.next this w1.

Definition count (query : js.value) (conn : js.outcome (option M))
  : js.outcome (option Z) * option M :=
  then_ conn (fun collection =>
    optional collection (m_countDocuments query) id).

(** [.then(() => a)] and the like, on what a promise settles to. *)
Definition settle {A B} (f : A -> B) (o : js.outcome A) : js.outcome B :=
  match o with
  | js.Resolved a => js.Resolved (f a)
  | js.Rejected err => js.Rejected err
  end.

(** A single document is passed by value: the object returned is the
    caller's, with the identifier it has been given. *)
Definition insertOne (fresh : nat) (doc : object) (opts : option object)
    (conn : js.outcome (option M)) : js.outcome object * option M :=
  let doc := with_id fresh doc in
  then_ conn (fun collection =>
    optional collection (m_insertOne doc (assign_ writeOpts opts))
             (fun _ => doc)).

(** An array lists references into [heap], so that one object may be listed
    twice; the driver is handed the objects as they are after the loop. *)
Definition insertMany (fresh : nat) (docs : list nat) (opts : option object)
    (conn : js.outcome (option M)) (heap : list object)
  : js.outcome (list nat) * option M * list object :=
  let heap := with_ids fresh docs heap in
  (then_ conn (fun collection =>
     optional collection
       (m_insertMany (omap (fun r => heap !! r) docs) (assign_ writeOpts opts))
       (fun _ => docs)),
   heap).

(** [Array.isArray(docOrDocs)] is the right injection. *)
Definition insert (fresh : nat) (docOrDocs : object + list nat)
    (opts : option object) (conn : js.outcome (option M))
    (heap : list object)
  : js.outcome (object + list nat) * option M * list object :=
  match docOrDocs with
  | inr docs =>
      let '(a, m, heap') := insertMany fresh docs opts conn heap in
      (settle inr a, m, heap')
  | inl doc =>
      let '(a, m) := insertOne fresh doc opts conn in
      (settle inl a, m, heap)
  end.

Definition update (query : selector) (u : modifier) (opts : option object)
    (conn : js.outcome (option M)) : js.outcome object * option M :=
  let opts := or_empty opts in
  let isMulti := get "multi" (Some opts) in
  then_ conn (fun collection =>
    optional collection
      (if js.truthy isMulti
       then m_updateMany query u (assign_ writeOpts (Some opts))
       else m_updateOne query u (assign_ writeOpts (Some opts)))
      (fun result =>
         reshaped result (js.or (get "modifiedCount" result)
                                (get "upsertedCount" result)))).

(** [this.insert(doc, opts)] of a [doc] that is no array is
    [this.insertOne(doc, opts)]. *)
Definition save (fresh : nat) (doc : object) (opts : option object)
    (conn : js.outcome (option M)) : js.outcome object * option M :=
  let opts := or_empty opts in
  if js.truthy (get "_id" (Some doc))
  then
    let '(a, m) :=
      update (ById (get "_id" (Some doc))) (SetDoc doc)
             (Some (assign_ {[ "upsert" := js.boolean true ]} (Some opts)))
             conn in
    (settle (fun _ => doc) a, m)
  else insertOne fresh doc (Some opts) conn.

Definition remove (query : js.value) (opts : remove_opts)
    (conn : js.outcome (option M)) : js.outcome object * option M :=
  let opts := justOne_opts opts in
  then_ conn (fun collection =>
    optional collection
      (if js.truthy (get "justOne" (Some opts))
       then m_deleteOne query (assign_ writeOpts (Some opts))
       else m_deleteMany query (assign_ writeOpts (Some opts)))
      (fun result => reshaped result (get "deletedCount" result))).

(** [collection.rename(name, opts)], with no [?.]. *)
Definition rename (name : string) (opts : option object)
    (conn : js.outcome (option M)) : js.outcome js.value * option M :=
  then_ conn (fun collection =>
    match collection with
    | None => (js.Rejected js.TypeError, None)
    | Some m => let '(a, m') := m_rename name opts m in (a, Some m')
    end).

Definition isCapped (conn : js.outcome (option M))
  : js.outcome bool * option M :=
  then_ conn (fun collection =>
    optional collection m_isCapped (fun isCapped => default false isCapped)).

(** [opts] is defaulted to [{}] when it is [undefined], which [None] is
    here. *)
Definition aggregate_factory (pipeline : list js.value)
    (opts : option object) (connect : nat -> js.outcome (option M)) (k : nat)
  : js.outcome (option H) :=
  match connect k with
  | js.Rejected err => js.Rejected err
  | js.Resolved collection =>
      js.Resolved (m_aggregate pipeline (or_empty opts) <$> collection)
  end.

Definition aggregateAsCursor (pipeline : list js.value)
    (opts : option object) (connect : nat -> js.outcome (option M))
    (w : @Cursor.world H Flag) : nat * @Cursor.world H Flag :=
  Cursor.new (aggregate_factory pipeline opts connect) w.

Definition aggregate (pipeline : list js.value) (opts : option object)
    (connect : nat -> js.outcome (option M)) (w : @Cursor.world H Flag)
  : js.outcome (list js.value) * @Cursor.world H Flag :=
  let '(this, w1) := aggregateAsCursor pipeline opts connect w in
  Cursor.toArray this w1.

End with_driver.

(** [new Bulk(this.name, ordered, () => this.db.connect(), opts)]: the
    constructor defaults an [opts] that is [undefined] to
    [{ writeConcern: { w: 1 } }] and throws at [null.writeConcern]. *)
Definition new_Bulk (name : string) (ordered : bool) (opts : bulk_opts)
  : option Bulk.t :=
  match opts with
  | BulkUndefined => Some (Bulk.new name ordered Bulk.w1)
  | BulkNull => None
  | BulkOpts o => Some (Bulk.new name ordered (get "writeConcern" (Some o)))
  end.

Definition initializeOrderedBulkOp (name : string) (opts : bulk_opts)
  : option Bulk.t := new_Bulk name true opts.

Definition initializeUnorderedBulkOp (name : string) (opts : bulk_opts)
  : option Bulk.t := new_Bulk name false opts.

End Collection.

(** ** Collaborators to run the code against *)

(** A store that answers every command with the same result. *)
Definition answering (n : Z) (writeErrors : option (list js.value))
    (cmd : Command.t) (s : unit) : js.outcome CommandResult.t * unit :=
  (js.Resolved (CommandResult.mk n writeErrors None), s).

(** A store that answers its first [k] commands with a result and rejects
    from then on; its state counts the commands received. *)
Definition answering_until (k : nat) (n : Z)
    (writeErrors : option (list js.value)) (cmd : Command.t) (s : nat)
  : js.outcome CommandResult.t * nat :=
  if (s <? k)%nat
  then (js.Resolved (CommandResult.mk n writeErrors None), S s)
  else (js.Rejected (js.str "unreachable"), S s).

(** A handle over a list of documents held in memory.  It records the
    setters and the flags applied to it and the listeners attached. *)
Module MemCursor.

Record t : Type := mk {
  docs : list js.value;
  position : nat;
  applied : list (operation * js.value);
  flags : list (string * js.value);
  listeners : nat;
  closed : bool;
  killed : bool
}.

Definition of_docs (docs : list js.value) : t := mk docs 0 [] [] 0 false false.

Definition apply (key : operation) (data : js.value) (h : t) : option t :=
  Some (mk (docs h) (position h) (applied h ++ [(key, data)]) (flags h)
           (listeners h) (closed h) (killed h)).

Definition addCursorFlag (flag : string) (value : js.value) (h : t)
  : option t :=
  Some (mk (docs h) (position h) (applied h) (flags h ++ [(flag, value)])
           (listeners h) (closed h) (killed h)).

Definition on_close (h : t) : t :=
  mk (docs h) (position h) (applied h) (flags h) (S (listeners h))
     (closed h) (killed h).

Definition set_closed (b : bool) (p : nat) (h : t) : t :=
  mk (docs h) p (applied h) (flags h) (listeners h) b (killed h).

Definition next (h : t) : js.outcome js.value * t :=
  match docs h !! position h with
  | Some doc => (js.Resolved doc, set_closed (closed h) (S (position h)) h)
  | None => (js.Resolved js.null, set_closed true (position h) h)
  end.

Definition hasNext (h : t) : js.outcome bool * t :=
  (js.Resolved (position h <? length (docs h))%nat, h).

Definition close (h : t) : js.outcome unit * t :=
  (js.Resolved tt, set_closed true (position h) h).

Definition toArray (h : t) : js.outcome (list js.value) * t :=
  (js.Resolved (drop (position h) (docs h)),
   set_closed true (length (docs h)) h).

Definition count (options : list (operation * js.value)) (h : t)
  : js.outcome Z * t :=
  (js.Resolved (Z.of_nat (length (docs h))), h).

Definition explain (h : t) : js.outcome js.value * t :=
  (js.Resolved (js.obj 0), h).

Definition rewind (h : t) : js.outcome unit * t :=
  (js.Resolved tt, set_closed false 0 h).

#[global] Instance find_cursor : FindCursor t string := {|
  h_apply := apply;
  h_addCursorFlag := addCursorFlag;
  h_on_close := on_close;
  h_closed := closed;
  h_killed := killed;
  h_next := next;
  h_hasNext := hasNext;
  h_close := close;
  h_toArray := toArray;
  h_count := count;
  h_explain := explain;
  h_rewind := rewind
|}.

(** A factory that always resolves to a new handle over [docs]. *)
Definition factory (docs : list js.value) (k : nat)
  : js.outcome (option t) :=
  js.Resolved (Some (of_docs docs)).

End MemCursor.

(** A driver's collection held in memory: it hands out cursors over the
    documents [stored] and records the writes it is asked for. *)
Module MemCollection.

Inductive write : Type :=
  | InsertOne (doc options : object)
  | InsertMany (docs : list object) (options : object)
  | UpdateOne (q : selector) (u : modifier) (options : object)
  | UpdateMany (q : selector) (u : modifier) (options : object)
  | DeleteOne (q : js.value) (options : object)
  | DeleteMany (q : js.value) (options : object)
  | Rename (name : string).

Record t : Type := mk {
  stored : list js.value;
  log : list write
}.

Definition record (c : write) (m : t) : t := mk (stored m) (log m ++ [c]).

Definition updated : object :=
  {[ "acknowledged" := js.boolean true; "matchedCount" := js.number 1;
     "modifiedCount" := js.number 1; "upsertedCount" := js.number 0 ]}.

Definition deleted : object :=
  {[ "acknowledged" := js.boolean true; "deletedCount" := js.number 1 ]}.

#[global] Instance mongo_collection : MongoCollection t MemCursor.t := {|
  m_find := fun _ _ m => MemCursor.of_docs (stored m);
  m_aggregate := fun _ _ m => MemCursor.of_docs (stored m);
  m_countDocuments := fun _ m =>
    (js.Resolved (Z.of_nat (length (stored m))), m);
  m_insertOne := fun doc options m =>
    (js.Resolved tt, record (InsertOne doc options) m);
  m_insertMany := fun docs options m =>
    (js.Resolved tt, record (InsertMany docs options) m);
  m_updateOne := fun q u options m =>
    (js.Resolved updated, record (UpdateOne q u options) m);
  m_updateMany := fun q u options m =>
    (js.Resolved updated, record (UpdateMany q u options) m);
  m_deleteOne := fun q options m =>
    (js.Resolved deleted, record (DeleteOne q options) m);
  m_deleteMany := fun q options m =>
    (js.Resolved deleted, record (DeleteMany q options) m);
  m_rename := fun name _ m => (js.Resolved (js.obj 0), record (Rename name) m);
  m_isCapped := fun m => (js.Resolved false, m)
|}.

(** A collection of two documents, nothing written yet. *)
Definition two : t := mk [js.obj 1; js.obj 2] [].

End MemCollection.

(** ** Vocabulary for the properties *)

Module BulkSpec.

Import Bulk.

(** The three kinds of intent, with the two names each is accumulated
    under: [ensureCommand('insert', 'documents')] and so on. *)
Inductive kind : Type := Insert | Update | Delete.

Definition cmdName (k : kind) : string :=
  match k with
  | Insert => "insert"
  | Update => "update"
  | Delete => "delete"
  end.

Definition bulkCollection (k : kind) : string :=
  match k with
  | Insert => "documents"
  | Update => "updates"
  | Delete => "deletes"
  end.

Definition kind_of (o : Operation) : kind :=
  match o with
  | OpInsert _ => Insert
  | OpUpdate _ _ _ _ => Update
  | OpDelete _ _ => Delete
  end.

#[export] Instance kind_eq_dec : EqDecision kind.
Proof. solve_decision. Defined.

(** The command that [ensureCommand] creates for kind [k] on instance [b],
    once it holds [ops]. *)
Definition command_of (b : t) (k : kind) (ops : list Operation) : Command.t :=
  Command.mk (ordered b) (writeConcern b) {[cmdName k := colName b]}
             {[bulkCollection k := ops]}.

(** Two instances that differ only in their commands. *)
Definition same_config (b b' : t) : Prop :=
  colName b' = colName b /\ ordered b' = ordered b /\
  writeConcern b' = writeConcern b.

Definition ops_of (k : kind) (c : Command.t) : list Operation :=
  default [] (Command.getBulkCollection (bulkCollection k) c).

(** One accumulating call of the public surface: [insert(doc)],
    [find(q).remove()] / [find(q).removeOne()], and [find(q)] followed by
    [update] / [updateOne] / [replaceOne], with or without [upsert()]. *)
Inductive intent : Type :=
  | DoInsert (fresh : nat) (doc : gmap string js.value)
  | DoUpdate (q u : js.value) (multi upsert : bool)
  | DoRemove (q : js.value) (one : bool).

Definition with_upsert (upsert : bool) (f : FindSyntaxCmds) : FindSyntaxCmds :=
  if upsert then FindSyntax.upsert f else f.

Definition perform (i : intent) (b : t) : option t :=
  match i with
  | DoInsert fresh doc => insert fresh doc b
  | DoUpdate q u multi upsert =>
      if multi
      then FindSyntax.update u (with_upsert upsert (find q)) b
      else FindSyntax.updateOne u (with_upsert upsert (find q)) b
  | DoRemove q one =>
      if one then FindSyntax.removeOne (find q) b
      else FindSyntax.remove (find q) b
  end.

(** The item that an intent pushes. *)
Definition item (i : intent) : Operation :=
  match i with
  | DoInsert fresh doc => OpInsert (with_id fresh doc)
  | DoUpdate q u multi upsert => OpUpdate q u multi upsert
  | DoRemove q one => OpDelete q (if one then 1 else 0)
  end.

Definition intent_kind (i : intent) : kind := kind_of (item i).

(** The intents performed one after the other. *)
Fixpoint accumulate (l : list intent) (b : t) : option t :=
  match l with
  | [] => Some b
  | i :: l' => b' ← perform i b; accumulate l' b'
  end.

(** A command of [b]: created by [ensureCommand] for one kind, and holding
    only items of that kind, at most [MAX_BULK_SIZE] of them. *)
Definition kinded (b : t) (c : Command.t) : Prop :=
  exists k ops,
    c = command_of b k ops /\
    Forall (fun o => kind_of o = k) ops /\
    (length ops <= MAX_BULK_SIZE)%nat.

Record wf (b : t) : Prop := mkWf {
  wf_cmds : Forall (fun r => (r < length (heap b))%nat) (cmds b);
  wf_current : forall r, currentCmd b = Some r -> (r < length (heap b))%nat;
  wf_heap : Forall (kinded b) (heap b)
}.

(** The state after intents of kind [k] only: the heap holds the full
    commands [full] and then the open one [cur]; [cmds] names the full ones
    in order. *)
Definition batched (b0 : t) (k : kind) (full : list (list Operation))
    (cur : list Operation) (b : t) : Prop :=
  same_config b0 b /\
  heap b = command_of b0 k <$> (full ++ [cur]) /\
  cmds b = seq 0 (length full) /\
  currentCmd b = Some (length full).

(** Rounding up: [ceil(n / d)]. *)
Definition ceil_div (n d : nat) : nat := ((n + d - 1) / d)%nat.

(** The write errors that one answer of the store reports. *)
Definition reported (o : js.outcome CommandResult.t) : list js.value :=
  match o with
  | js.Resolved r => default [] (CommandResult.writeErrors r)
  | js.Rejected _ => []
  end.

Definition answered {A} (o : js.outcome A) : Prop :=
  match o with
  | js.Resolved _ => True
  | js.Rejected _ => False
  end.

(** The count fields of a result object and the two sequences that
    [setResult] leaves alone. *)
Definition counts (r : Result.t) : Z * Z * Z * Z * Z :=
  (Result.nInserted r, Result.nUpserted r, Result.nMatched r,
   Result.nModified r, Result.nRemoved r).

(** Command [j] submitted, answered and merged. *)
Definition round (j : nat) : list event := [Submit j; Response j; Merge j].

Definition rounds (m : nat) : list event := flat_map round (seq 0 m).

(** The index that a submission event carries. *)
Definition submitted (ev : event) : option nat :=
  match ev with
  | Submit j => Some j
  | _ => None
  end.

(** The three shapes of a reachable state: one command in flight after
    [m] full rounds; the chain resolved after all rounds; the chain rejected
    by the answer to command [m]. *)
Inductive shape (cmds : list Command.t) (e : exec) : Prop :=
  | in_flight m :
      (m < length cmds)%nat -> pending e = [m] ->
      history e = rounds m ++ [Submit m] -> outcome e = None ->
      shape cmds e
  | all_merged :
      pending e = [] -> history e = rounds (length cmds) ->
      outcome e = Some (js.Resolved tt) -> shape cmds e
  | refused m err :
      (m < length cmds)%nat -> pending e = [] ->
      history e = rounds m ++ [Submit m; Response m] ->
      outcome e = Some (js.Rejected err) -> shape cmds e.

(** An ordered bulk on [users] after [insert({})] and
    [find(q).remove()]: an insert command, then an open delete command. *)
Definition insert_then_remove : t :=
  default (new "users" true js.undefined)
    (accumulate [DoInsert 0 ∅; DoRemove (js.obj 1) false]
                (new "users" true js.undefined)).

End BulkSpec.

Module CursorSpec.

Import Cursor.

(** The calls that the specification names consuming. *)
Inductive consuming : Type := Next | HasNext | ToArray | Count | Explain | Rewind.

Section with_driver.

Context {H Flag : Type} `{EqDecision Flag} `{FindCursor H Flag}.

Local Abbreviation instance := (@Cursor.t H Flag).
Local Abbreviation world := (@Cursor.world H Flag).

(** The world after a consuming call, whatever it settled to. *)
Definition call (m : consuming) (this : nat) (w : world) : world :=
  match m with
  | Next => (next this w).2
  | HasNext => (hasNext this w).2
  | ToArray => (toArray this w).2
  | Count => (count this w).2
  | Explain => (explain this w).2
  | Rewind => (rewind this w).2
  end.

(** Any call on a cursor. *)
Inductive method : Type :=
  | Consume (m : consuming)
  | Size
  | Close
  | Destroy
  | Set_ (operation : operation) (data : js.value)
  | AddCursorFlag (flag : Flag) (value : js.value).

(** The world after a call on [this], whatever it returned or settled
    to. *)
Definition invoke (a : method) (this : nat) (w : world) : world :=
  match a with
  | Consume m => call m this w
  | Size => (size this w).2
  | Close => (close this w).2
  | Destroy => (destroy this w).2
  | Set_ operation data => default w (snd <$> setter operation data this w)
  | AddCursorFlag flag value =>
      default w (snd <$> addCursorFlag flag value this w)
  end.

Fixpoint invokes (l : list method) (this : nat) (w : world) : world :=
  match l with
  | [] => w
  | a :: l' => invokes l' this (invoke a this w)
  end.

(** The handle after the driver's part of a consuming call. *)
Definition use (m : consuming) (options : list (operation * js.value))
    (h : H) : H :=
  match m with
  | Next => if h_closed h || h_killed h then h else (h_next h).2
  | HasNext => if negb (h_closed h) then (h_hasNext h).2 else h
  | ToArray => (h_toArray h).2
  | Count => (h_count options h).2
  | Explain => (h_explain h).2
  | Rewind => (h_rewind h).2
  end.

(** Instance [c] with its handle set, the factory called [k] times more. *)
Definition holding (k : nat) (h : H) (c : instance) : instance :=
  mk (cursorFactory c) (k + factoryCalls c) (_options c) (_flags c) (Some h).

End with_driver.

(** No [Cursor] constructed yet. *)
Definition nothing : @Cursor.world MemCursor.t string := mkWorld [] None.

(** One cursor over two documents, after [limit(5)] and
    [addCursorFlag('tailable', true)], not consumed yet. *)
Definition configured : @Cursor.world MemCursor.t string :=
  let w1 := (new (MemCursor.factory [js.obj 1; js.obj 2]) nothing).2 in
  let w2 := default w1 (snd <$> setter limit (js.number 5) 0 w1) in
  default w2 (snd <$> addCursorFlag "tailable" (js.boolean true) 0 w2).

(** Two cursors constructed one after the other, neither configured nor
    consumed. *)
Definition two_cursors : @Cursor.world MemCursor.t string :=
  let w1 := (new (MemCursor.factory [js.obj 1]) nothing).2 in
  (new (MemCursor.factory [js.obj 2]) w1).2.

End CursorSpec.

(** The batching that [ensureCommand] is to implement, said on lists: a
    new batch starts when the kind changes or the open batch is full; and,
    as the code has it, at every item when the collection name is the empty
    string. *)
Module Batching.

Import Bulk BulkSpec.

(** A batch: its kind and its items. *)
Definition batch : Type := (kind * list Operation)%type.

(** Whether a collection name counts as a name for [ensureCommand]. *)
Definition named (col : string) : bool := negb (String.eqb col EmptyString).

(** One more item: the closed batches and the open one, before and
    after. *)
Definition step (named : bool) (st : list batch * option batch)
    (o : Operation) : list batch * option batch :=
  match st.2 with
  | None => (st.1, Some (kind_of o, [o]))
  | Some (k, ops) =>
      if named && bool_decide (k = kind_of o)
         && negb (Nat.eqb (length ops) MAX_BULK_SIZE)
      then (st.1, Some (k, ops ++ [o]))
      else (st.1 ++ [(k, ops)], Some (kind_of o, [o]))
  end.

Definition batches (named : bool) (items : list Operation) : list batch :=
  let st := fold_left (step named) items ([], None) in
  st.1 ++ option_list st.2.

(** The items that a command holds, under whichever bulk collection. *)
Definition all_ops (c : Command.t) : list Operation :=
  ops_of Insert c ++ ops_of Update c ++ ops_of Delete c.

(** All the items held by the commands of an instance. *)
Definition stored (b : t) : list Operation := concat (all_ops <$> heap b).

(** The state that corresponds to closed batches and an open one. *)
Definition tracks (b0 : t) (st : list batch * option batch) (b : t) : Prop :=
  same_config b0 b /\
  heap b = (fun g : batch => command_of b0 g.1 g.2)
             <$> (st.1 ++ option_list st.2) /\
  cmds b = seq 0 (length st.1) /\
  currentCmd b = (fun _ => length st.1) <$> st.2.

(** Any call on a [Bulk] short of [execute]. *)
Inductive api : Type :=
  | Accumulate (i : intent)
  | ToJson
  | ToString.

Definition api_call (a : api) (b : t) : option t :=
  match a with
  | Accumulate i => perform i b
  | ToJson => Some (tojson b).2
  | ToString => Some (toString b).2
  end.

Fixpoint api_calls (l : list api) (b : t) : option t :=
  match l with
  | [] => Some b
  | a :: l' => b' ← api_call a b; api_calls l' b'
  end.

End Batching.

(** What successive [next] calls get from a handle. *)
Module Pulling.

Import Cursor CursorSpec.

(** How the pulling ends: with a falsy document (or a handle that reports
    closed or killed), or with a rejection. *)
Inductive ending : Type := Ended | Failed.

Section with_driver.

Context {H Flag : Type} `{EqDecision Flag} `{FindCursor H Flag}.

Local Abbreviation instance := (@Cursor.t H Flag).
Local Abbreviation world := (@Cursor.world H Flag).

(** [pulls h docs e h']: from state [h] on, the handle yields the truthy
    documents [docs] and then ends as [e], in state [h']. *)
Inductive pulls : H -> list js.value -> ending -> H -> Prop :=
  | pulls_shut h :
      h_closed h || h_killed h = true -> pulls h [] Ended h
  | pulls_end h doc h' :
      h_closed h || h_killed h = false ->
      h_next h = (js.Resolved doc, h') -> js.truthy doc = false ->
      pulls h [] Ended h'
  | pulls_fail h err h' :
      h_closed h || h_killed h = false ->
      h_next h = (js.Rejected err, h') ->
      pulls h [] Failed h'
  | pulls_more h doc h' docs e h'' :
      h_closed h || h_killed h = false ->
      h_next h = (js.Resolved doc, h') -> js.truthy doc = true ->
      pulls h' docs e h'' ->
      pulls h (doc :: docs) e h''.

(** The calls that configure. *)
Definition configures (a : @method Flag) : Prop :=
  match a with
  | Set_ _ _ | AddCursorFlag _ _ => True
  | _ => False
  end.

(** A realization that fails: the factory rejects, or resolves to
    [undefined], or the handle throws at an option or a flag. *)
Definition fails (c : instance) : Prop :=
  match cursorFactory c (factoryCalls c) with
  | js.Rejected _ => True
  | js.Resolved None => True
  | js.Resolved (Some h0) =>
      apply_options (_options c) h0 ≫= add_flags (_flags c) = None
  end.

(** Instance [c] after a failed realization. *)
Definition failed (c : instance) : instance :=
  mk (cursorFactory c) (S (factoryCalls c)) (_options c) (_flags c) None.

(** The setters called one after the other on [this]. *)
Definition sets (l : list (operation * js.value)) : list (@method Flag) :=
  (fun e => Set_ e.1 e.2) <$> l.

End with_driver.

(** A factory whose first call is rejected and whose later calls resolve
    to a new handle over [docs]. *)
Definition flaky (docs : list js.value) (k : nat)
  : js.outcome (option MemCursor.t) :=
  match k with
  | O => js.Rejected (js.str "unreachable")
  | S _ => MemCursor.factory docs k
  end.

(** One cursor made with the flaky factory, after [limit(5)]. *)
Definition unlucky : @Cursor.world MemCursor.t string :=
  let w1 := (new (flaky [js.obj 1]) nothing).2 in
  default w1 (snd <$> setter limit (js.number 5) 0 w1).

(** One cursor over three documents, realized by a [hasNext()]. *)
Definition opened : @Cursor.world MemCursor.t string :=
  (hasNext 0 (new (MemCursor.factory [js.obj 1; js.obj 2; js.obj 3])
                  nothing).2).2.

End Pulling.

(** ** Properties of the batch accumulator *)

Module BulkFacts.

Import Bulk BulkSpec.

Lemma cmdName_inj k k' : cmdName k = cmdName k' -> k = k'.
Proof. by destruct k, k'. Qed.

Lemma bulkCollection_inj k k' : bulkCollection k = bulkCollection k' -> k = k'.
Proof. by destruct k, k'. Qed.

Lemma perform_unfold i b :
  perform i b =
  '(r, b1) ← ensureCommand (cmdName (intent_kind i))
                           (bulkCollection (intent_kind i)) b;
  push r (bulkCollection (intent_kind i)) (item i) b1.
Proof. by destruct i as [fresh doc|q u [] []|q []]. Qed.

Lemma accumulate_app l1 l2 b :
  accumulate (l1 ++ l2) b = b' ← accumulate l1 b; accumulate l2 b'.
Proof.
  revert b. induction l1 as [|i l1 IH]; intros b; simpl; [done|].
  destruct (perform i b) as [b'|]; simpl; [apply IH|done].
Qed.

Lemma command_of_config b b' k ops :
  same_config b b' -> command_of b' k ops = command_of b k ops.
Proof. intros (Hc & Ho & Hw). unfold command_of. by rewrite Hc, Ho, Hw. Qed.

Lemma same_config_refl b : same_config b b.
Proof. by repeat split. Qed.

Lemma same_config_trans b1 b2 b3 :
  same_config b1 b2 -> same_config b2 b3 -> same_config b1 b3.
Proof. unfold same_config. intros (-> & -> & ->) (-> & -> & ->). done. Qed.

(** *** [ensureCommand], case by case *)

Lemma must_flush_command_of b k ops k' :
  must_flush (cmdName k') (bulkCollection k') (command_of b k ops) =
  Some (if decide (k' = k)
        then if String.eqb (colName b) EmptyString then true
             else Nat.eqb (length ops) MAX_BULK_SIZE
        else true).
Proof.
  unfold must_flush, Command.getCmdName, Command.getBulkCollection. simpl.
  destruct (decide (k' = k)) as [->|Hne].
  - rewrite !lookup_singleton_eq. simpl.
    by destruct (String.eqb (colName b) EmptyString).
  - rewrite lookup_singleton_ne; [done|].
    intros Heq. by apply cmdName_inj in Heq.
Qed.

Lemma ensureCommand_fresh cn bc b :
  currentCmd b = None ->
  ensureCommand cn bc b =
  Some (length (heap b),
        mk (colName b) (ordered b) (writeConcern b) (cmds b)
           (Some (length (heap b)))
           (heap b ++ [Command.mk (ordered b) (writeConcern b)
                         {[cn := colName b]} {[bc := []]}])).
Proof.
  intros Hcur. unfold ensureCommand. rewrite Hcur. simpl. rewrite Hcur.
  unfold Command.setBulkCollection, Command.setCmdName, Command.new. simpl.
  by rewrite !insert_empty.
Qed.

Lemma ensureCommand_keep cn bc b r c :
  currentCmd b = Some r -> heap b !! r = Some c ->
  must_flush cn bc c = Some false ->
  ensureCommand cn bc b = Some (r, b).
Proof.
  intros Hcur Hr Hf. unfold ensureCommand. rewrite Hcur, Hr. simpl.
  rewrite Hf. simpl. by rewrite Hcur.
Qed.

Lemma ensureCommand_flush cn bc b r c :
  currentCmd b = Some r -> heap b !! r = Some c ->
  must_flush cn bc c = Some true ->
  ensureCommand cn bc b =
  Some (length (heap b),
        mk (colName b) (ordered b) (writeConcern b) (cmds b ++ [r])
           (Some (length (heap b)))
           (heap b ++ [Command.mk (ordered b) (writeConcern b)
                         {[cn := colName b]} {[bc := []]}])).
Proof.
  intros Hcur Hr Hf. unfold ensureCommand. rewrite Hcur, Hr. simpl.
  rewrite Hf. simpl.
  unfold Command.setBulkCollection, Command.setCmdName, Command.new. simpl.
  by rewrite !insert_empty.
Qed.

Lemma push_command_of b r k ops o :
  heap b !! r = Some (command_of b k ops) ->
  push r (bulkCollection k) o b =
  Some (set_heap (<[r := command_of b k (ops ++ [o])]> (heap b)) b).
Proof.
  intros Hr. unfold push. rewrite Hr. simpl.
  unfold Command.push, Command.getBulkCollection. simpl.
  rewrite lookup_singleton_eq. simpl.
  by rewrite insert_singleton_eq.
Qed.

(** *** One accumulating call, case by case *)

Lemma perform_fresh i b :
  currentCmd b = None ->
  perform i b =
  Some (mk (colName b) (ordered b) (writeConcern b) (cmds b)
           (Some (length (heap b)))
           (heap b ++ [command_of b (intent_kind i) [item i]])).
Proof.
  intros Hcur. rewrite perform_unfold, ensureCommand_fresh by done. simpl.
  erewrite (push_command_of _ _ _ []); last first.
  { simpl. by apply list_lookup_middle. }
  simpl. unfold set_heap. simpl. f_equal. f_equal.
  rewrite insert_app_r_alt by done. by rewrite Nat.sub_diag.
Qed.

Lemma perform_flush i b r k0 ops :
  currentCmd b = Some r ->
  heap b !! r = Some (command_of b k0 ops) ->
  k0 <> intent_kind i \/ colName b = EmptyString \/
    length ops = MAX_BULK_SIZE ->
  perform i b =
  Some (mk (colName b) (ordered b) (writeConcern b) (cmds b ++ [r])
           (Some (length (heap b)))
           (heap b ++ [command_of b (intent_kind i) [item i]])).
Proof.
  intros Hcur Hr Hcase. rewrite perform_unfold.
  erewrite ensureCommand_flush; [|done|done|]; last first.
  { rewrite must_flush_command_of. f_equal.
    destruct (decide (intent_kind i = k0)) as [Heq|]; [|done].
    destruct Hcase as [Hne|[->|Hfull]]; [by subst|done|].
    rewrite Hfull, Nat.eqb_refl. by destruct (String.eqb _ _). }
  simpl.
  erewrite (push_command_of _ _ _ []); last first.
  { simpl. by apply list_lookup_middle. }
  simpl. unfold set_heap. simpl. f_equal. f_equal.
  rewrite insert_app_r_alt by done. by rewrite Nat.sub_diag.
Qed.

Lemma perform_keep i b r ops :
  currentCmd b = Some r ->
  heap b !! r = Some (command_of b (intent_kind i) ops) ->
  colName b <> EmptyString ->
  length ops <> MAX_BULK_SIZE ->
  perform i b =
  Some (set_heap (<[r := command_of b (intent_kind i) (ops ++ [item i])]>
                    (heap b)) b).
Proof.
  intros Hcur Hr Hcol Hroom. rewrite perform_unfold.
  erewrite ensureCommand_keep; [|done|done|]; last first.
  { rewrite must_flush_command_of. f_equal.
    rewrite decide_True by done.
    destruct (String.eqb_spec (colName b) EmptyString) as [|_]; [done|].
    by apply Nat.eqb_neq. }
  simpl. by apply push_command_of.
Qed.

(** *** The invariant of the accumulated state *)

Lemma wf_new col ord wc : wf (new col ord wc).
Proof. split; simpl; [constructor|done|constructor]. Qed.

Lemma kinded_config b b' c : same_config b b' -> kinded b c -> kinded b' c.
Proof.
  intros Hs (k & ops & -> & Hk & Hlen). exists k, ops.
  by rewrite (command_of_config b b').
Qed.

Lemma wf_pushCurrentCmd b : wf b -> wf (pushCurrentCmd b).
Proof.
  intros [Hc Hcur Hh]. unfold pushCurrentCmd.
  destruct (currentCmd b) as [r|] eqn:Hr; [|split; [done|congruence|done]].
  split; simpl; [|by rewrite Hr|done].
  apply Forall_app; split; [done|]. constructor; [|done]. by apply Hcur.
Qed.

Lemma wf_perform i b :
  wf b -> exists b', perform i b = Some b' /\ wf b' /\ same_config b b'.
Proof.
  intros [Hc Hcur Hh].
  assert (Hext : forall c0 cs,
    wf (mk (colName b) (ordered b) (writeConcern b) cs
           (Some (length (heap b)))
           (heap b ++ [c0])) <->
    Forall (fun r => (r < S (length (heap b)))%nat) cs /\ kinded b c0).
  { intros c0 cs. split.
    - intros [Hc' _ Hh']. simpl in *. rewrite length_app in Hc'. simpl in Hc'.
      split; [by rewrite Nat.add_1_r in Hc'|].
      apply Forall_app in Hh' as [_ Hh']. by inversion Hh'.
    - intros [Hcs Hk]. split; simpl.
      + rewrite length_app. simpl. by rewrite Nat.add_1_r.
      + intros r [= <-]. rewrite length_app. simpl. lia.
      + apply Forall_app; split; [|by constructor]. done. }
  assert (Hnew : kinded b (command_of b (intent_kind i) [item i])).
  { exists (intent_kind i), [item i]. split_and!; [done| |].
    - by constructor.
    - unfold MAX_BULK_SIZE. simpl. lia. }
  destruct (currentCmd b) as [r|] eqn:Hr.
  - pose proof (Hcur r eq_refl) as Hlt.
    destruct (lookup_lt_is_Some_2 _ _ Hlt) as [c Hlook].
    pose proof (Forall_lookup_1 _ _ _ _ Hh Hlook) as (k0 & ops & -> & Hk & Hlen).
    destruct (decide (k0 <> intent_kind i \/ colName b = EmptyString \/
                      length ops = MAX_BULK_SIZE)) as [Hflush|Hkeep].
    + eexists. split; [by eapply perform_flush|]. split; [|by repeat split].
      apply Hext. split; [|done].
      apply Forall_app; split.
      * eapply Forall_impl; [done|]. simpl. lia.
      * constructor; [lia|done].
    + assert (k0 = intent_kind i) as ->.
      { destruct (decide (k0 = intent_kind i)); [done|]. tauto. }
      eexists. split; [eapply perform_keep; eauto; tauto|].
      split; [|by repeat split].
      split; simpl; rewrite ?length_insert; [done|by rewrite Hr|].
      apply Forall_insert; [done|].
      exists (intent_kind i), (ops ++ [item i]). split_and!; [done| |].
      * apply Forall_app; split; [done|]. by constructor.
      * rewrite length_app. simpl.
        assert (length ops <> MAX_BULK_SIZE) by tauto. lia.
  - eexists. split; [by eapply perform_fresh|]. split; [|by repeat split].
    apply Hext. split; [|done].
    eapply Forall_impl; [done|]. simpl. lia.
Qed.

Lemma wf_accumulate l b :
  wf b -> exists b', accumulate l b = Some b' /\ wf b' /\ same_config b b'.
Proof.
  revert b. induction l as [|i l IH]; intros b Hwf; simpl.
  - exists b. split_and!; [done|done|apply same_config_refl].
  - destruct (wf_perform i b Hwf) as (b1 & -> & Hwf1 & Hs1). simpl.
    destruct (IH b1 Hwf1) as (b2 & -> & Hwf2 & Hs2).
    exists b2. split_and!; [done|done|by eapply same_config_trans].
Qed.

Lemma wf_tojson b : wf b -> wf (tojson b).2.
Proof. apply wf_pushCurrentCmd. Qed.

(** The commands that [this.cmds] lists are commands of the instance. *)
Lemma wf_commands b : wf b -> Forall (kinded b) (commands b).
Proof.
  intros [_ _ Hh]. unfold commands. apply Forall_forall. intros c Hc.
  apply list_elem_of_omap in Hc as (r & _ & Hr).
  by eapply Forall_lookup_1.
Qed.

(** *** Intents of one kind, accumulated into a new instance *)

Lemma batched_current b0 k full cur b :
  batched b0 k full cur b ->
  heap b !! length full = Some (command_of b k cur).
Proof.
  intros (Hs & Hh & _ & _). rewrite Hh, (command_of_config b0 b) by done.
  rewrite fmap_app. simpl. apply list_lookup_middle. by rewrite length_fmap.
Qed.

Lemma batched_perform b0 k full cur b i :
  colName b0 <> EmptyString -> intent_kind i = k ->
  batched b0 k full cur b ->
  exists b', perform i b = Some b' /\
    if decide (length cur = MAX_BULK_SIZE)
    then batched b0 k (full ++ [cur]) [item i] b'
    else batched b0 k full (cur ++ [item i]) b'.
Proof.
  intros Hcol <- Hb. pose proof (batched_current _ _ _ _ _ Hb) as Hlook.
  destruct Hb as (Hs & Hh & Hc & Hcur).
  assert (colName b <> EmptyString) as Hcol' by (by destruct Hs as (-> & _)).
  assert (length (heap b) = S (length full)) as Hlen.
  { rewrite Hh, length_fmap, length_app. simpl. lia. }
  destruct (decide (length cur = MAX_BULK_SIZE)) as [Hfull|Hroom].
  - eexists. split; [eapply perform_flush; eauto|].
    split_and!; simpl.
    + done.
    + rewrite Hh, (command_of_config b0 b) by done.
      by rewrite (fmap_app _ (full ++ [cur])).
    + rewrite Hc, length_app. simpl. by rewrite seq_app.
    + rewrite Hlen, length_app. simpl. f_equal. lia.
  - eexists. split; [eapply perform_keep; eauto|].
    split_and!; simpl; [done| |done|done].
    rewrite Hh, (command_of_config b0 b) by done.
    rewrite !fmap_app. simpl.
    rewrite insert_app_r_alt by (by rewrite length_fmap).
    by rewrite length_fmap, Nat.sub_diag.
Qed.

Lemma accumulate_batched col ord wc k l i :
  col <> EmptyString ->
  Forall (fun j => intent_kind j = k) (l ++ [i]) ->
  exists full cur b,
    accumulate (l ++ [i]) (new col ord wc) = Some b /\
    batched (new col ord wc) k full cur b /\
    Forall (fun ch => length ch = MAX_BULK_SIZE) full /\
    (1 <= length cur <= MAX_BULK_SIZE)%nat /\
    concat full ++ cur = item <$> (l ++ [i]).
Proof.
  intros Hcol. revert i. induction l as [|j l IH] using rev_ind; intros i Hk.
  - exists [], [item i]. eexists. simpl.
    rewrite perform_fresh by done. simpl.
    apply Forall_singleton in Hk as <-.
    split_and!; try done.
    unfold MAX_BULK_SIZE. lia.
  - apply Forall_app in Hk as [Hl Hi]. apply Forall_inv in Hi.
    destruct (IH j Hl) as (full & cur & b & Hacc & Hb & Hfull & Hcur & Hcat).
    rewrite accumulate_app, Hacc. simpl.
    destruct (batched_perform (new col ord wc) k full cur b i Hcol Hi Hb)
      as (b' & -> & Hb').
    destruct (decide (length cur = MAX_BULK_SIZE)) as [Hmax|Hroom].
    + exists (full ++ [cur]), [item i], b'.
      split_and!; try done;
        try (unfold MAX_BULK_SIZE in *; simpl; lia).
      * apply Forall_app; split; [done|by constructor].
      * rewrite concat_app. simpl. rewrite app_nil_r, Hcat.
        by rewrite (fmap_app _ (l ++ [j])).
    + exists full, (cur ++ [item i]), b'.
      split_and!; try done;
        try (unfold MAX_BULK_SIZE in *; rewrite length_app; simpl; lia).
      rewrite app_assoc, Hcat. by rewrite (fmap_app _ (l ++ [j])).
Qed.

Lemma omap_lookup_seq {A} (pre l : list A) :
  omap (fun r => (pre ++ l) !! r) (seq (length pre) (length l)) = l.
Proof.
  revert pre. induction l as [|x l IH]; intros pre; simpl; [done|].
  rewrite list_lookup_middle by done. f_equal.
  specialize (IH (pre ++ [x])). rewrite length_app in IH. simpl in IH.
  rewrite Nat.add_1_r, <- app_assoc in IH. done.
Qed.

Lemma length_concat_full (full : list (list Operation)) :
  Forall (fun ch => length ch = MAX_BULK_SIZE) full ->
  length (concat full) = (MAX_BULK_SIZE * length full)%nat.
Proof.
  induction 1 as [|ch full Hch _ IH]; simpl length.
  - by rewrite Nat.mul_0_r.
  - rewrite length_app, IH, Hch, Nat.mul_succ_r. lia.
Qed.

(** The commands that [execute] walks after intents of one kind. *)
Lemma batched_commands b0 k full cur b :
  batched b0 k full cur b ->
  commands (pushCurrentCmd b) = command_of b0 k <$> (full ++ [cur]).
Proof.
  intros (Hs & Hh & Hc & Hcur). unfold pushCurrentCmd. rewrite Hcur.
  unfold commands. simpl. rewrite Hc, Hh.
  replace (seq 0 (length full) ++ [length full])
    with (seq (length (@nil Command.t))
              (length (command_of b0 k <$> (full ++ [cur])))).
  - apply (omap_lookup_seq []).
  - rewrite length_fmap, length_app. simpl.
    by rewrite seq_app.
Qed.

(** *** [setResult] and [each] *)

Lemma first_key_not_a_kind dcf cmd :
  head (Command.keys dcf cmd) ≫= cmdKeys = None.
Proof. by destruct dcf. Qed.

Lemma setResult_writeErrors dcf cmd cr res :
  Result.writeErrors (setResult dcf cmd cr res) =
  Result.writeErrors res ++ reported (js.Resolved cr).
Proof.
  unfold setResult. rewrite first_key_not_a_kind. simpl.
  destruct (CommandResult.writeErrors cr); simpl; [done|].
  by rewrite app_nil_r.
Qed.

Lemma setResult_counts dcf cmd cr res :
  counts (setResult dcf cmd cr res) = counts res /\
  Result.writeConcernErrors (setResult dcf cmd cr res) =
    Result.writeConcernErrors res /\
  Result.upserted (setResult dcf cmd cr res) = Result.upserted res /\
  Result.undefined_ (setResult dcf cmd cr res) = js.NaN.
Proof.
  unfold setResult. rewrite first_key_not_a_kind. simpl.
  by destruct (CommandResult.writeErrors cr).
Qed.

Section each_facts.

Context {Store : Type}.
Variable command : Command.t -> Store -> js.outcome CommandResult.t * Store.
Variable dcf : bool.

(** What [each] does to the log and to the result object. *)
Lemma each_spec cmds s res lg o s' res' lg' :
  each command dcf cmds s res lg = (o, s', res', lg') ->
  exists ex,
    lg' = lg ++ ex /\
    ex.*1 `prefix_of` cmds /\
    Result.writeErrors res' =
      Result.writeErrors res ++ concat (reported <$> ex.*2) /\
    counts res' = counts res /\
    Result.writeConcernErrors res' = Result.writeConcernErrors res /\
    Result.upserted res' = Result.upserted res /\
    (answered o <-> Forall (fun e => answered e.2) ex) /\
    (answered o -> ex.*1 = cmds).
Proof.
  revert s res lg. induction cmds as [|cmd rest IH]; intros s res lg; simpl.
  - intros [= <- <- <- <-]. exists []. rewrite app_nil_r. simpl.
    rewrite app_nil_r. repeat split; try done.
  - destruct (command cmd s) as [[cr|err] s1] eqn:Hc.
    + intros Heach. apply IH in Heach as (ex & -> & Hpre & Hwe & Hcnt & Hwc & Hup & Hans & Hall).
      exists ((cmd, js.Resolved cr) :: ex). rewrite <- app_assoc. simpl.
      destruct (setResult_counts dcf cmd cr res) as (Hc1 & Hc2 & Hc3 & _).
      repeat split.
      * by apply prefix_cons.
      * rewrite Hwe, setResult_writeErrors. by rewrite <- app_assoc.
      * by rewrite Hcnt.
      * by rewrite Hwc.
      * by rewrite Hup.
      * intros Ho. constructor; [done|]. by apply Hans.
      * intros Hf. apply Hans. by inversion Hf.
      * intros Ho. f_equal. by apply Hall.
    + intros [= <- <- <- <-]. exists [(cmd, js.Rejected err)]. simpl.
      rewrite !app_nil_r. repeat split; try done.
      * apply prefix_cons, prefix_nil.
      * intros Hf. by inversion Hf.
Qed.

(** What a run of [execute] leaves behind, whatever the connection and the
    store do. *)
Lemma execute_facts connect b :
  let r := execute command dcf connect b in
  after r = pushCurrentCmd b /\
  sent r `prefix_of` commands (pushCurrentCmd b) /\
  Result.writeErrors (result r) = concat (reported <$> (log r).*2) /\
  counts (result r) = (0, 0, 0, 0, 0) /\
  Result.writeConcernErrors (result r) = [] /\
  Result.upserted (result r) = [] /\
  (forall x, settled r = js.Resolved x ->
     x = result r /\ Result.ok x = js.number 1 /\
     sent r = commands (pushCurrentCmd b) /\
     Forall (fun e => answered e.2) (log r)).
Proof.
  unfold execute, sent. destruct connect as [[s|]|err]; simpl.
  - destruct (each command dcf (commands (pushCurrentCmd b)) s Result.init [])
      as [[[o s'] res'] lg'] eqn:Heach.
    apply each_spec in Heach
      as (ex & -> & Hpre & Hwe & Hcnt & Hwc & Hup & Hans & Hall).
    simpl in *. destruct o as [[]|err]; simpl.
    + split_and!; try done.
      intros x [= <-]. split_and!; [done|done|by apply Hall|by apply Hans].
    + split_and!; done.
  - destruct (commands (pushCurrentCmd b)) eqn:Hcmds; simpl.
    + split_and!; try done. by intros x [= <-].
    + split_and!; try done. apply prefix_nil.
  - split_and!; try done. apply prefix_nil.
Qed.

(** When the connection is had and no answer of the store is a rejection,
    the promise of [execute] resolves and every command was submitted. *)
Lemma execute_answered s b :
  let r := execute command dcf (js.Resolved (Some s)) b in
  Forall (fun e => answered e.2) (log r) ->
  settled r = js.Resolved (result r) /\
  sent r = commands (pushCurrentCmd b).
Proof.
  unfold execute, sent. simpl.
  destruct (each command dcf (commands (pushCurrentCmd b)) s Result.init [])
    as [[[o s'] res'] lg'] eqn:Heach.
  apply each_spec in Heach
    as (ex & -> & Hpre & Hwe & Hcnt & Hwc & Hup & Hans & Hall).
  simpl in *. destruct o as [[]|err]; simpl; intros Hf.
  - split; [done|]. by apply Hall.
  - by apply Hans in Hf.
Qed.

End each_facts.

(** Whatever was accumulated, every command that [execute] submits holds
    items of one kind only, at most [MAX_BULK_SIZE] of them. *)
Lemma execute_sends_kinded {Store}
    (command : Command.t -> Store -> js.outcome CommandResult.t * Store)
    dcf connect b :
  wf b -> Forall (kinded b) (sent (execute command dcf connect b)).
Proof.
  intros Hwf.
  destruct (execute_facts command dcf connect b) as (_ & [rest Hpre] & _).
  pose proof (wf_commands _ (wf_pushCurrentCmd _ Hwf)) as Hall.
  rewrite Hpre in Hall. apply Forall_app in Hall as [Hall _].
  eapply Forall_impl; [exact Hall|]. intros c. apply kinded_config.
  unfold pushCurrentCmd. by destruct (currentCmd b); repeat split.
Qed.

(** *** [ensureCommand] on a well-formed instance with a non-empty
    collection name *)

Lemma ensureCommand_spec b k :
  wf b -> colName b <> EmptyString ->
  match currentCmd b with
  | None =>
      ensureCommand (cmdName k) (bulkCollection k) b =
      Some (length (heap b),
            mk (colName b) (ordered b) (writeConcern b) (cmds b)
               (Some (length (heap b))) (heap b ++ [command_of b k []]))
  | Some r =>
      exists k0 ops,
        heap b !! r = Some (command_of b k0 ops) /\
        if decide (k0 = k /\ (length ops < MAX_BULK_SIZE)%nat)
        then ensureCommand (cmdName k) (bulkCollection k) b = Some (r, b)
        else ensureCommand (cmdName k) (bulkCollection k) b =
             Some (length (heap b),
                   mk (colName b) (ordered b) (writeConcern b)
                      (cmds b ++ [r]) (Some (length (heap b)))
                      (heap b ++ [command_of b k []]))
  end.
Proof.
  intros [Hc Hcur Hh] Hcol.
  destruct (currentCmd b) as [r|] eqn:Hr.
  - pose proof (Hcur r eq_refl) as Hlt.
    destruct (lookup_lt_is_Some_2 _ _ Hlt) as [c Hlook].
    pose proof (Forall_lookup_1 _ _ _ _ Hh Hlook) as (k0 & ops & -> & Hk & Hlen).
    exists k0, ops. split; [done|].
    assert (String.eqb (colName b) EmptyString = false) as Hne
      by (by apply String.eqb_neq).
    destruct (decide (k0 = k /\ (length ops < MAX_BULK_SIZE)%nat))
      as [[-> Hroom]|Hno].
    + eapply ensureCommand_keep; [done|done|].
      rewrite must_flush_command_of, decide_True, Hne by done.
      f_equal. apply Nat.eqb_neq. lia.
    + eapply ensureCommand_flush; [done|done|].
      rewrite must_flush_command_of, Hne. f_equal.
      destruct (decide (k = k0)) as [->|]; [|done].
      apply Nat.eqb_eq.
      destruct (decide (length ops = MAX_BULK_SIZE)); [done|].
      exfalso. apply Hno. split; [done|lia].
  - by apply ensureCommand_fresh.
Qed.

(** Three intents of alternating kind make three commands, in order. *)
Lemma insert_update_insert col ord wc f1 d1 q u multi upsert f2 d2 :
  exists b,
    accumulate [DoInsert f1 d1; DoUpdate q u multi upsert; DoInsert f2 d2]
               (new col ord wc) = Some b /\
    commands (pushCurrentCmd b) =
      [command_of (new col ord wc) Insert [OpInsert (with_id f1 d1)];
       command_of (new col ord wc) Update [OpUpdate q u multi upsert];
       command_of (new col ord wc) Insert [OpInsert (with_id f2 d2)]].
Proof.
  eexists. split.
  - cbn [accumulate]. rewrite perform_fresh by done. cbn [mbind option_bind].
    erewrite perform_flush; [|done|done|by left]. cbn [mbind option_bind].
    erewrite perform_flush; [|done|done|by left]. done.
  - done.
Qed.

(** *** Intents of one kind, executed *)

(** With a non-empty collection name, [N] intents of one kind make
    [ceil(N / 1000)] commands of at most 1000 items, which hold the items in
    the order of the intents; and these are the commands submitted when the
    store answers each of them. *)
Lemma execute_single_kind {Store} (command : Command.t -> Store -> _) dcf s
    col ord wc k l :
  col <> EmptyString ->
  Forall (fun j => intent_kind j = k) l ->
  exists b,
    accumulate l (new col ord wc) = Some b /\
    let cs := commands (pushCurrentCmd b) in
    length cs = ceil_div (length l) MAX_BULK_SIZE /\
    Forall (fun c => (length (ops_of k c) <= MAX_BULK_SIZE)%nat) cs /\
    concat (ops_of k <$> cs) = item <$> l /\
    let r := execute command dcf (js.Resolved (Some s)) b in
    (Forall (fun e => answered e.2) (log r) -> sent r = cs).
Proof.
  intros Hcol Hk.
  destruct l as [|i l _] using rev_ind.
  - eexists. split; [done|]. simpl. split_and!; try done.
  - destruct (accumulate_batched col ord wc k l i Hcol Hk)
      as (full & cur & b & Hacc & Hb & Hfull & Hcur & Hcat).
    exists b. split; [done|]. cbv zeta.
    rewrite (batched_commands _ _ _ _ _ Hb).
    assert (Hops : forall chs : list (list Operation),
              ops_of k <$> (command_of (new col ord wc) k <$> chs) = chs).
    { intros chs. rewrite <- list_fmap_compose.
      rewrite <- (list_fmap_id chs) at 2. apply list_fmap_ext.
      intros _ ch _. unfold ops_of, Command.getBulkCollection. simpl.
      by rewrite lookup_singleton_eq. }
    split_and!.
    + rewrite length_fmap, length_app. change (length [cur]) with 1%nat.
      assert (length (l ++ [i]) =
              MAX_BULK_SIZE * length full + length cur)%nat as ->.
      { rewrite <- (length_fmap item), <- Hcat, length_app.
        by rewrite length_concat_full. }
      unfold ceil_div.
      apply (Nat.div_unique _ _ _ (length cur - 1)); unfold MAX_BULK_SIZE in *;
        lia.
    + apply Forall_fmap, Forall_forall. intros ch Hin. simpl.
      unfold ops_of, Command.getBulkCollection. simpl.
      rewrite lookup_singleton_eq. simpl.
      apply elem_of_app in Hin as [Hin|Hin].
      * rewrite Forall_forall in Hfull. rewrite (Hfull ch Hin). done.
      * apply list_elem_of_singleton in Hin as ->. lia.
    + rewrite Hops, concat_app. simpl. by rewrite app_nil_r.
    + intros Hans. apply execute_answered in Hans as [_ ->].
      by rewrite (batched_commands _ _ _ _ _ Hb).
Qed.

(** *** [tojson] *)

Lemma tojson_step_id cmds o :
  fold_left tojson_step cmds (Some o) = Some o.
Proof. induction cmds as [|c cmds IH]; simpl; [done|apply IH]. Qed.

(** *** The claims on [Bulk] *)

(** C1.  [execute] is meant to add each command's reported [n] to the count
    of the command's kind, through [cmdKeys] and the first key of the
    command.  It does not: after one [insert] for which the store reports
    [n = 1], the promise resolves with [nInserted = 0] (the [n] went to a
    property named "undefined", which holds [NaN]), under either layout of
    the fields of [Command]. *)
Theorem execute_counts_not_accumulated (dcf : bool) :
  exists b x,
    insert 0 ∅ (new "users" true js.undefined) = Some b /\
    let r := execute (answering 1 None) dcf (js.Resolved (Some tt)) b in
    settled r = js.Resolved x /\
    (log r).*2 = [js.Resolved (CommandResult.mk 1 None None)] /\
    Result.nInserted x = 0 /\
    Result.undefined_ x = js.NaN.
Proof. destruct dcf; do 2 eexists; (split; [by vm_compute|]); by vm_compute. Qed.

(** C2.  With the empty string as collection name, two inserts are
    submitted as two commands of one document each, where [ceil(2 / 1000)]
    is one: the test [!this.currentCmd.getCmdName(cmdName)] takes the empty
    name for a missing one. *)
Theorem empty_name_splits_every_item (dcf : bool) :
  exists b,
    accumulate [DoInsert 0 ∅; DoInsert 1 ∅]
               (new EmptyString true js.undefined) = Some b /\
    length (sent (execute (answering 1 None) dcf (js.Resolved (Some tt)) b))
      = 2%nat /\
    ceil_div 2 MAX_BULK_SIZE = 1%nat.
Proof. destruct dcf; eexists; (split; [by vm_compute|]); by vm_compute. Qed.

(** C3.  With the empty string as collection name, [ensureCommand] flushes
    an open command of the requested kind that has room: after one insert
    the open command is an insert command holding one document, and
    [ensureCommand('insert', 'documents')] pushes it onto [cmds] and returns
    a new one. *)
Theorem ensureCommand_empty_name_flushes :
  exists b c b',
    insert 0 ∅ (new EmptyString true js.undefined) = Some b /\
    currentCmd b = Some 0%nat /\
    heap b !! 0%nat = Some c /\
    Command.getCmdName "insert" c = Some EmptyString /\
    length <$> Command.getBulkCollection "documents" c = Some 1%nat /\
    ensureCommand "insert" "documents" b = Some (1%nat, b') /\
    cmds b' = [0%nat] /\
    currentCmd b' = Some 1%nat.
Proof.
  do 3 eexists. split; [by vm_compute|]. split; [by vm_compute|].
  split; [by vm_compute|]. split; [by vm_compute|]. split; [by vm_compute|].
  split; [by vm_compute|]. split; by vm_compute.
Qed.

(** C5.  Write errors that the store reports in a command's result are not
    faults: when the connection is had and the store answers each submitted
    command with a result, whatever write errors the results carry and
    whatever the [ordered] flag, the promise of [execute] resolves, every
    command of the batch has been submitted, and the result's [writeErrors]
    are the reported ones, in order. *)
Theorem execute_collects_write_errors {Store}
    (command : Command.t -> Store -> js.outcome CommandResult.t * Store)
    (dcf : bool) (s : Store) (b : t) :
  Forall (fun e => answered e.2)
         (log (execute command dcf (js.Resolved (Some s)) b)) ->
  let r := execute command dcf (js.Resolved (Some s)) b in
  (exists x, settled r = js.Resolved x /\
             Result.writeErrors x = concat (reported <$> (log r).*2)) /\
  sent r = commands (pushCurrentCmd b).
Proof.
  intros Hans r.
  destruct (execute_answered command dcf s b Hans) as [Hres Hsent].
  destruct (execute_facts command dcf (js.Resolved (Some s)) b)
    as (_ & _ & Hwe & _).
  split; [|done]. exists (result r). by split.
Qed.

(** C9, as amended.  [tojson] (and [toString], which calls it) executes
    nothing (it is given no connection) and leaves the open command and
    every command object as they are, but it appends the open command, when
    there is one, to the command list, and [nBatches] is the length of the
    list after that; with no open command the instance is unchanged and a
    second call returns what the first did. *)
Theorem tojson_frame (b : t) :
  heap (tojson b).2 = heap b /\
  currentCmd (tojson b).2 = currentCmd b /\
  same_config b (tojson b).2 /\
  cmds (tojson b).2 = cmds b ++ option_list (currentCmd b) /\
  (exists i u r,
     (tojson b).1 = Some (mkStats i u r (length (cmds (tojson b).2)))) /\
  toString b = (stringify <$> (tojson b).1, (tojson b).2) /\
  match currentCmd b with
  | Some _ => True
  | None => (tojson b).2 = b /\ tojson (tojson b).2 = tojson b
  end.
Proof.
  unfold toString, tojson. rewrite !tojson_step_id. simpl.
  destruct (currentCmd b) as [r|] eqn:Hr; simpl.
  - split_and!; try done. by eexists _, _, _.
  - rewrite app_nil_r, Hr. split_and!; try done. by eexists _, _, _.
Qed.

(** C9, as stated, fails: after one insert the command list is empty; a
    first [tojson] puts the open command on it and reports one batch, a
    second reports two. *)
Lemma tojson_appends_open_command :
  exists b,
    insert 0 ∅ (new "users" true js.undefined) = Some b /\
    cmds b = [] /\
    cmds (tojson b).2 = [0%nat] /\
    (tojson b).1 = Some (mkStats 0 0 0 1) /\
    (tojson (tojson b).2).1 = Some (mkStats 0 0 0 2).
Proof. eexists. split; [by vm_compute|]. by vm_compute. Qed.

(** C10.  Whatever the store reports, a resolved result has
    [nMatched = 0], [nModified = 0] and empty [writeConcernErrors] and
    [upserted]. *)
Theorem execute_untouched_fields {Store}
    (command : Command.t -> Store -> js.outcome CommandResult.t * Store)
    (dcf : bool) (connect : js.outcome (option Store)) (b : t)
    (x : Result.t) :
  settled (execute command dcf connect b) = js.Resolved x ->
  Result.nMatched x = 0 /\ Result.nModified x = 0 /\
  Result.writeConcernErrors x = [] /\ Result.upserted x = [].
Proof.
  intros Hx.
  destruct (execute_facts command dcf connect b)
    as (_ & _ & _ & Hcnt & Hwc & Hup & Hres).
  destruct (Hres x Hx) as (-> & _).
  unfold counts in Hcnt. by injection Hcnt as _ _ -> -> _.
Qed.

(** *** [each], one callback at a time *)

Lemma rounds_S m : rounds (S m) = rounds m ++ round m.
Proof.
  unfold rounds. by rewrite seq_S, flat_map_app.
Qed.

Lemma length_rounds m : length (rounds m) = (3 * m)%nat.
Proof.
  induction m as [|m IH]; [done|].
  rewrite rounds_S, length_app, IH. simpl. lia.
Qed.

Lemma rounds_submit m p i :
  rounds m !! p = Some (Submit i) -> p = (3 * i)%nat /\ (i < m)%nat.
Proof.
  induction m as [|m IH]; [done|]. rewrite rounds_S.
  intros [Hl|[Hge Hr]]%lookup_app_Some.
  - destruct (IH Hl). lia.
  - rewrite length_rounds in Hge, Hr.
    destruct (p - 3 * m)%nat as [|[|[|n]]] eqn:Hp; simpl in Hr; try done.
    injection Hr as <-. lia.
Qed.

Lemma rounds_answer m i :
  (i < m)%nat ->
  rounds m !! (3 * i + 1)%nat = Some (Response i) /\
  rounds m !! (3 * i + 2)%nat = Some (Merge i).
Proof.
  induction m as [|m IH]; [lia|]. intros Hi. rewrite rounds_S.
  destruct (decide (i = m)) as [->|Hne].
  - rewrite !lookup_app_r by (rewrite length_rounds; lia).
    rewrite length_rounds.
    replace (3 * m + 1 - 3 * m)%nat with 1%nat by lia.
    by replace (3 * m + 2 - 3 * m)%nat with 2%nat by lia.
  - destruct IH as [H1 H2]; [lia|].
    rewrite !lookup_app_l by (rewrite length_rounds; lia). done.
Qed.

Lemma submitted_rounds m : omap submitted (rounds m) = seq 0 m.
Proof.
  induction m as [|m IH]; [done|].
  by rewrite rounds_S, omap_app, IH, seq_S.
Qed.

Lemma shape_call_each cmds m e :
  (m <= length cmds)%nat ->
  pending e = [] -> history e = rounds m -> outcome e = None ->
  shape cmds (call_each cmds m e).
Proof.
  intros Hm Hp Hh Ho. unfold call_each.
  destruct (m <? length cmds)%nat eqn:Hlt.
  - apply Nat.ltb_lt in Hlt. apply (in_flight _ _ m); simpl; [done| | |done].
    + by rewrite Hp.
    + by rewrite Hh.
  - apply Nat.ltb_ge in Hlt. assert (m = length cmds) as -> by lia.
    by apply all_merged.
Qed.

Lemma shape_start cmds : shape cmds (start cmds).
Proof. apply shape_call_each; simpl; [lia|done..]. Qed.

Lemma filter_out_single (m : nat) : filter (fun j => j <> m) [m] = [].
Proof. by rewrite filter_cons_False by (intros Hne; by apply Hne). Qed.

Lemma shape_settle dcf cmds idx reply e e' :
  shape cmds e -> settle dcf cmds idx reply e = Some e' -> shape cmds e'.
Proof.
  intros Hs. unfold settle.
  destruct Hs as [m Hm Hp Hh Ho|Hp Hh Ho|m err Hm Hp Hh Ho]; rewrite Hp.
  - case_bool_decide as Hin; [|done].
    apply list_elem_of_singleton in Hin as ->.
    rewrite filter_out_single.
    destruct (cmds !! m) as [cmd|] eqn:Hcmd; [|done]. simpl.
    destruct reply as [cr|err]; intros [= <-].
    + apply shape_call_each; simpl; [lia|done| |done].
      rewrite Hh, rounds_S. unfold round.
      by rewrite <- !app_assoc.
    + apply (refused _ _ m err); simpl; [done|done| |done].
      rewrite Hh. by rewrite <- app_assoc.
  - case_bool_decide as Hin; [|done]. by apply elem_of_nil in Hin.
  - case_bool_decide as Hin; [|done]. by apply elem_of_nil in Hin.
Qed.

Lemma shape_settle_all dcf cmds replies e e' :
  shape cmds e -> settle_all dcf cmds replies e = Some e' -> shape cmds e'.
Proof.
  revert e. induction replies as [|[idx reply] replies IH]; intros e Hs; simpl.
  - by intros [= <-].
  - destruct (settle dcf cmds idx reply e) as [e1|] eqn:He1; [|done]. simpl.
    apply IH. by eapply shape_settle.
Qed.

(** C4.  Whatever the pending command the store answers next and however
    it answers, in every state that [each] reaches at most one command is
    pending, the commands are submitted in the order of the list, and the
    submission of command [i + 1] comes after the answer to command [i] and
    after its merge into the result. *)
Theorem each_one_at_a_time (dcf : bool) (cmds : list Command.t)
    (replies : list (nat * js.outcome CommandResult.t)) (e : exec) :
  settle_all dcf cmds replies (start cmds) = Some e ->
  (length (pending e) <= 1)%nat /\
  (exists k, omap submitted (history e) = seq 0 k) /\
  (forall p i, history e !! p = Some (Submit (S i)) ->
     exists q r, (q < r < p)%nat /\
       history e !! q = Some (Response i) /\
       history e !! r = Some (Merge i)).
Proof.
  intros Hrun.
  pose proof (shape_settle_all _ _ _ _ _ (shape_start cmds) Hrun) as Hs.
  assert (Hin : forall m tl p i,
    (forall q ev, tl !! q = Some ev -> ev = Submit (S i) -> q = 0%nat /\ S i = m) ->
    (rounds m ++ tl) !! p = Some (Submit (S i)) ->
    exists q r, (q < r < p)%nat /\
      (rounds m ++ tl) !! q = Some (Response i) /\
      (rounds m ++ tl) !! r = Some (Merge i)).
  { intros m tl p i Htl [Hl|[Hge Hr]]%lookup_app_Some.
    - apply rounds_submit in Hl as [-> Hlt].
      destruct (rounds_answer m i) as [H1 H2]; [lia|].
      exists (3 * i + 1)%nat, (3 * i + 2)%nat. split; [lia|].
      by rewrite !lookup_app_l by (rewrite length_rounds; lia).
    - rewrite length_rounds in Hge, Hr.
      destruct (Htl _ _ Hr eq_refl) as [Hq <-].
      destruct (rounds_answer (S i) i) as [H1 H2]; [lia|].
      exists (3 * i + 1)%nat, (3 * i + 2)%nat. split; [lia|].
      by rewrite !lookup_app_l by (rewrite length_rounds; lia). }
  destruct Hs as [m Hm Hp Hh Ho|Hp Hh Ho|m err Hm Hp Hh Ho];
    rewrite Hp, Hh; simpl.
  - split_and!; [lia| |].
    + exists (S m). by rewrite omap_app, submitted_rounds, seq_S.
    + intros p i. apply Hin. intros [|q] ev Hq ->; [|done].
      by injection Hq as ->.
  - split_and!; [lia| |].
    + exists (length cmds). apply submitted_rounds.
    + intros p i Hl. rewrite <- (app_nil_r (rounds _)) in Hl |- *.
      revert Hl. apply Hin. by intros q ev Hq.
  - split_and!; [lia| |].
    + exists (S m). by rewrite omap_app, submitted_rounds, seq_S.
    + intros p i. apply Hin. intros [|[|q]] ev Hq ->; [|done..].
      by injection Hq as ->.
Qed.

(** The run of [each] as a function is one schedule of the callbacks: the
    store answers each command as soon as it is submitted. *)
Section each_as_callbacks.

Context {Store : Type}.
Variable command : Command.t -> Store -> js.outcome CommandResult.t * Store.
Variable dcf : bool.

Lemma each_log cmds s res lg :
  each command dcf cmds s res lg =
  (let '(o, s', res', ex) := each command dcf cmds s res [] in
   (o, s', res', lg ++ ex)).
Proof.
  revert s res lg. induction cmds as [|cmd rest IH]; intros s res lg; simpl.
  - by rewrite app_nil_r.
  - destruct (command cmd s) as [[cr|err] s1]; [|done].
    rewrite (IH _ _ (lg ++ _)), (IH _ _ [_]).
    destruct (each command dcf rest s1 _ []) as [[[o s'] res'] ex].
    by rewrite <- app_assoc.
Qed.

Lemma each_from rest pre s res h o s' res' ex :
  each command dcf rest s res [] = (o, s', res', ex) ->
  exists e,
    settle_all dcf (pre ++ rest) (zip (seq (length pre) (length ex)) ex.*2)
      (call_each (pre ++ rest) (length pre) (mkExec [] res h None)) = Some e /\
    merged e = res' /\ outcome e = Some o /\ pending e = [].
Proof.
  revert pre s res h ex.
  induction rest as [|cmd rest IH]; intros pre s res h ex; simpl.
  - intros [= <- <- <- <-]. unfold call_each. rewrite app_nil_r.
    rewrite (proj2 (Nat.ltb_ge _ _)) by lia. simpl. by eexists.
  - unfold call_each. rewrite (proj2 (Nat.ltb_lt _ _))
      by (rewrite length_app; simpl; lia). simpl.
    destruct (command cmd s) as [[cr|err] s1] eqn:Hc.
    + rewrite each_log.
      destruct (each command dcf rest s1 _ []) as [[[o1 s1'] res1] ex1] eqn:He.
      intros [= <- <- <- <-]. simpl.
      unfold settle. simpl.
      rewrite bool_decide_eq_true_2 by (by apply list_elem_of_singleton).
      rewrite list_lookup_middle by done. simpl.
      rewrite filter_out_single.
      specialize (IH (pre ++ [cmd]) s1 _
                     (((h ++ [Submit (length pre)]) ++
                       [Response (length pre)]) ++ [Merge (length pre)])
                     ex1 He).
      rewrite length_app in IH. simpl in IH.
      rewrite Nat.add_1_r, <- app_assoc in IH. simpl in IH. exact IH.
    + intros [= <- <- <- <-]. simpl.
      unfold settle. simpl.
      rewrite bool_decide_eq_true_2 by (by apply list_elem_of_singleton).
      rewrite list_lookup_middle by done. simpl.
      rewrite filter_out_single. by eexists.
Qed.

Lemma each_as_callbacks cmds s o s' res' ex :
  each command dcf cmds s Result.init [] = (o, s', res', ex) ->
  exists e,
    settle_all dcf cmds (zip (seq 0 (length ex)) ex.*2) (start cmds) = Some e /\
    merged e = res' /\ outcome e = Some o /\ pending e = [].
Proof. intros He. by apply (each_from cmds [] s Result.init [] o s' res' ex). Qed.

End each_as_callbacks.

(** *** The claims at concrete inputs *)

Lemma insert_then_remove_cmds :
  accumulate [DoInsert 0 ∅; DoRemove (js.obj 1) false]
             (new "users" true js.undefined) = Some insert_then_remove /\
  cmds insert_then_remove = [0%nat] /\
  currentCmd insert_then_remove = Some 1%nat.
Proof. by vm_compute. Qed.

(** C4 on two commands, answered in turn. *)
Lemma each_one_at_a_time_witness :
  exists e,
    settle_all false
      [Command.new true js.undefined; Command.new true js.undefined]
      [(0%nat, js.Resolved (CommandResult.mk 1 None None));
       (1%nat, js.Resolved (CommandResult.mk 1 None None))]
      (start [Command.new true js.undefined; Command.new true js.undefined])
      = Some e /\
    ((length (pending e) <= 1)%nat /\
     (exists k, omap submitted (history e) = seq 0 k) /\
     (forall p i, history e !! p = Some (Submit (S i)) ->
        exists q r, (q < r < p)%nat /\
          history e !! q = Some (Response i) /\
          history e !! r = Some (Merge i))).
Proof.
  eexists. split; [by vm_compute|].
  apply (each_one_at_a_time false
           [Command.new true js.undefined; Command.new true js.undefined]
           [(0%nat, js.Resolved (CommandResult.mk 1 None None));
            (1%nat, js.Resolved (CommandResult.mk 1 None None))]).
  by vm_compute.
Defined.

(** C5 on an ordered bulk of two commands, each answered with a result
    that reports a write error. *)
Lemma execute_collects_write_errors_witness :
  Forall (fun e => answered e.2)
    (log (execute (answering 0 (Some [js.str "E11000"])) false
                  (js.Resolved (Some tt)) insert_then_remove)) /\
  let r := execute (answering 0 (Some [js.str "E11000"])) false
                   (js.Resolved (Some tt)) insert_then_remove in
  (exists x, settled r = js.Resolved x /\
             Result.writeErrors x = concat (reported <$> (log r).*2)) /\
  sent r = commands (pushCurrentCmd insert_then_remove).
Proof.
  split.
  - vm_compute. repeat constructor.
  - apply (execute_collects_write_errors
             (answering 0 (Some [js.str "E11000"])) false tt
             insert_then_remove).
    vm_compute. repeat constructor.
Defined.

(** C10 on the same bulk, each command answered with [n = 3]. *)
Lemma execute_untouched_fields_witness :
  exists x,
    settled (execute (answering 3 None) false (js.Resolved (Some tt))
                     insert_then_remove) = js.Resolved x /\
    (Result.nMatched x = 0 /\ Result.nModified x = 0 /\
     Result.writeConcernErrors x = [] /\ Result.upserted x = []).
Proof.
  eexists. split; [by vm_compute|].
  apply (execute_untouched_fields (answering 3 None) false
           (js.Resolved (Some tt)) insert_then_remove).
  by vm_compute.
Defined.

End BulkFacts.

(** ** Properties of the cursor adapter *)

Module CursorFacts.

Import Cursor CursorSpec.

Section facts.

Context {H Flag : Type} `{EqDecision Flag} `{FindCursor H Flag}.

Local Abbreviation instance := (@Cursor.t H Flag).
Local Abbreviation world := (@Cursor.world H Flag).

Lemma update_id this c (w : world) :
  instances w !! this = Some c -> update this c w = w.
Proof.
  intros Hc. destruct w as [cs p]. unfold update. simpl in *.
  by rewrite list_insert_id.
Qed.

Lemma update_update this c c' (w : world) :
  update this c' (update this c w) = update this c' w.
Proof. unfold update. simpl. by rewrite list_insert_insert_eq. Qed.

Lemma lookup_update this c (w : world) :
  is_Some (instances w !! this) ->
  instances (update this c w) !! this = Some c.
Proof.
  intros Hc%lookup_lt_is_Some. unfold update. simpl.
  by apply list_lookup_insert_eq.
Qed.

Lemma getCursor_realized this (w : world) c h :
  instances w !! this = Some c -> cursor c = Some h ->
  getCursor this w = (js.Resolved h, w).
Proof. intros Hc Hh. unfold getCursor. by rewrite Hc, Hh. Qed.

Lemma getCursor_unrealized this (w : world) c h0 h1 h2 :
  instances w !! this = Some c -> cursor c = None ->
  cursorFactory c (factoryCalls c) = js.Resolved (Some h0) ->
  apply_options (_options c) h0 = Some h1 ->
  add_flags (_flags c) h1 = Some h2 ->
  getCursor this w =
  (js.Resolved (h_on_close h2),
   update this (holding 1 (h_on_close h2) c) w).
Proof.
  intros Hc Hh Hf H1 H2. unfold getCursor.
  rewrite Hc, Hh, Hf, H1. simpl. by rewrite H2.
Qed.

(** A call on a realized cursor hands the stored handle to the driver and
    stores what comes back; the factory is not called. *)
Lemma then_realized {A} (f : instance -> H -> js.outcome A * H) this
    (w : world) c h :
  instances w !! this = Some c -> cursor c = Some h ->
  then_ f this w = ((f c h).1, update this (holding 0 (f c h).2 c) w).
Proof.
  intros Hc Hh. unfold then_.
  rewrite (getCursor_realized this w c h), Hc by done.
  by destruct (f c h).
Qed.

(** A call on a cursor not yet realized, when the factory resolves to a
    handle that accepts the options and the flags. *)
Lemma then_unrealized {A} (f : instance -> H -> js.outcome A * H) this
    (w : world) c h0 h1 h2 :
  instances w !! this = Some c -> cursor c = None ->
  cursorFactory c (factoryCalls c) = js.Resolved (Some h0) ->
  apply_options (_options c) h0 = Some h1 ->
  add_flags (_flags c) h1 = Some h2 ->
  let c1 := holding 1 (h_on_close h2) c in
  then_ f this w =
  ((f c1 (h_on_close h2)).1,
   update this (holding 1 (f c1 (h_on_close h2)).2 c) w).
Proof.
  intros Hc Hh Hf H1 H2 c1. unfold then_.
  rewrite (getCursor_unrealized this w c h0 h1 h2) by done.
  rewrite lookup_update by done. fold c1.
  destruct (f c1 (h_on_close h2)) as [a h']. simpl.
  by rewrite update_update.
Qed.

Lemma call_realized m this (w : world) c h :
  instances w !! this = Some c -> cursor c = Some h ->
  call m this w = update this (holding 0 (use m (_options c) h) c) w.
Proof.
  intros Hc Hh.
  destruct m; unfold call, next, hasNext, toArray, count, explain, rewind;
    rewrite (then_realized _ this w c h) by done; simpl; try done.
  - by destruct (h_closed h || h_killed h).
  - by destruct (h_closed h).
Qed.

Lemma call_unrealized m this (w : world) c h0 h1 h2 :
  instances w !! this = Some c -> cursor c = None ->
  cursorFactory c (factoryCalls c) = js.Resolved (Some h0) ->
  apply_options (_options c) h0 = Some h1 ->
  add_flags (_flags c) h1 = Some h2 ->
  call m this w =
  update this (holding 1 (use m (_options c) (h_on_close h2)) c) w.
Proof.
  intros Hc Hh Hf H1 H2.
  destruct m; unfold call, next, hasNext, toArray, count, explain, rewind;
    rewrite (then_unrealized _ this w c h0 h1 h2) by done; simpl; try done.
  - by destruct (h_closed (h_on_close h2) || h_killed (h_on_close h2)).
  - by destruct (h_closed (h_on_close h2)).
Qed.

(** *** The setters *)

Lemma setter_spec op data receiver (w : world) this w' :
  setter op data receiver w = Some (this, w') ->
  prototype w = Some this /\
  exists c, instances w !! this = Some c /\
    w' = update this (mk (cursorFactory c) (factoryCalls c)
                         (assign op data (_options c)) (_flags c) (cursor c)) w.
Proof.
  unfold setter. destruct (prototype w) as [p|]; [|done]. simpl.
  destruct (instances w !! p) as [c|] eqn:Hc; [|done]. simpl.
  intros [= <- <-]. split; [done|]. by exists c.
Qed.

(** A setter, early or late, leaves every handle and every factory count as
    it is: it only writes an entry of [_options], on the instance whose
    constructor ran last. *)
Lemma setter_keeps_handles op data receiver (w : world) this w' i c :
  setter op data receiver w = Some (this, w') ->
  instances w !! i = Some c ->
  exists c', instances w' !! i = Some c' /\
    cursor c' = cursor c /\ factoryCalls c' = factoryCalls c /\
    _flags c' = _flags c /\ (i <> this -> c' = c).
Proof.
  intros (Hp & c0 & Hc0 & ->)%setter_spec Hi.
  destruct (decide (i = this)) as [->|Hne].
  - rewrite Hc0 in Hi. injection Hi as <-.
    eexists. split; [by apply lookup_update|]. by split_and!.
  - exists c. unfold update. simpl.
    rewrite list_lookup_insert_ne by done. by split_and!.
Qed.

(** On the instance whose constructor ran last, a setter records the value
    and returns the instance. *)
Lemma setter_last op data (w : world) this c :
  prototype w = Some this -> instances w !! this = Some c ->
  setter op data this w =
  Some (this, update this (mk (cursorFactory c) (factoryCalls c)
                              (assign op data (_options c)) (_flags c)
                              (cursor c)) w).
Proof. intros Hp Hc. unfold setter. rewrite Hp. simpl. by rewrite Hc. Qed.

Lemma elem_of_assign {K V} `{EqDecision K} (k : K) (v : V) o :
  (k, v) ∈ assign k v o.
Proof.
  induction o as [|[k' v'] o IH]; simpl; [by apply list_elem_of_singleton|].
  destruct (decide (k' = k)); [by left|by right].
Qed.

(** Once realized, always realized: no call unsets the handle or calls the
    factory. *)
Lemma invoke_realized a this (w : world) c h :
  instances w !! this = Some c -> cursor c = Some h ->
  exists c' h', instances (invoke a this w) !! this = Some c' /\
    cursor c' = Some h' /\ factoryCalls c' = factoryCalls c.
Proof.
  intros Hc Hh. destruct a as [m| | | |op data|flag value]; simpl.
  - rewrite (call_realized m this w c h) by done.
    eexists _, _. split; [by apply lookup_update|done].
  - unfold size. rewrite (then_realized _ this w c h) by done. simpl.
    eexists _, _. split; [by apply lookup_update|done].
  - unfold close. rewrite (then_realized _ this w c h) by done. simpl.
    eexists _, _. split; [by apply lookup_update|done].
  - unfold destroy, close. rewrite (then_realized _ this w c h) by done. simpl.
    eexists _, _. split; [by apply lookup_update|done].
  - destruct (setter op data this w) as [[t w']|] eqn:Hs; simpl.
    + destruct (setter_keeps_handles _ _ _ _ _ _ _ _ Hs Hc)
        as (c' & Hc' & Hcur & Hcalls & _).
      exists c', h. by rewrite Hcur.
    + by exists c, h.
  - unfold addCursorFlag. rewrite Hc. simpl.
    eexists _, _. split; [by apply lookup_update|done].
Qed.

Lemma invokes_realized l this (w : world) c h :
  instances w !! this = Some c -> cursor c = Some h ->
  exists c' h', instances (invokes l this w) !! this = Some c' /\
    cursor c' = Some h' /\ factoryCalls c' = factoryCalls c.
Proof.
  revert w c h. induction l as [|a l IH]; intros w c h Hc Hh; simpl.
  - by exists c, h.
  - destruct (invoke_realized a this w c h Hc Hh) as (c1 & h1 & Hc1 & Hh1 & <-).
    by apply (IH _ c1 h1).
Qed.

(** *** The claims on [Cursor] *)

(** C6.  On a cursor not yet realized whose factory resolves to a handle
    that accepts the options and the flags, a consuming call ([next],
    [hasNext], [toArray], [count], [explain], [rewind]) calls the factory
    once, applies the accumulated options and then the accumulated flags to
    the handle, and keeps it; whatever calls follow, the cursor stays
    realized and the factory has been called that one time; and a consuming
    call on a realized cursor hands the kept handle to the driver without
    calling the factory. *)
Theorem cursor_realized_once (w : world) (this : nat) (c : instance)
    (h0 h1 h2 : H) (m : consuming) (later : list method) :
  instances w !! this = Some c -> cursor c = None ->
  cursorFactory c (factoryCalls c) = js.Resolved (Some h0) ->
  apply_options (_options c) h0 = Some h1 ->
  add_flags (_flags c) h1 = Some h2 ->
  call m this w =
    update this (holding 1 (use m (_options c) (h_on_close h2)) c) w /\
  (exists c' h,
     instances (invokes later this (call m this w)) !! this = Some c' /\
     cursor c' = Some h /\ factoryCalls c' = S (factoryCalls c)) /\
  (forall (w' : world) c' h m',
     instances w' !! this = Some c' -> cursor c' = Some h ->
     call m' this w' =
       update this (holding 0 (use m' (_options c') h) c') w').
Proof.
  intros Hc Hh Hf H1 H2.
  pose proof (call_unrealized m this w c h0 h1 h2 Hc Hh Hf H1 H2) as Hcall.
  split_and!.
  - done.
  - rewrite Hcall.
    apply (invokes_realized later this _
             (holding 1 (use m (_options c) (h_on_close h2)) c)
             (use m (_options c) (h_on_close h2)));
      [by apply lookup_update|done].
  - intros w' c' h m' Hc' Hh'. by apply call_realized.
Qed.

(** C8, as amended.  [close] (and [destroy], which is [close]) goes through
    [getCursor] like every other call: on a realized cursor it closes the
    kept handle; on a cursor never realized it first realizes it, calling
    the factory once and applying the options and the flags, and closes
    that handle.  Once the handle reports closed, [next] resolves to [null]
    and [hasNext] to [false], and neither calls the factory or touches the
    handle. *)
Theorem close_then_end (w : world) (this : nat) (c : instance) (k : nat)
    (h : H) :
  instances w !! this = Some c ->
  (cursor c = Some h /\ k = 0%nat) \/
  (cursor c = None /\ k = 1%nat /\
   exists h0 h1 h2,
     cursorFactory c (factoryCalls c) = js.Resolved (Some h0) /\
     apply_options (_options c) h0 = Some h1 /\
     add_flags (_flags c) h1 = Some h2 /\ h = h_on_close h2) ->
  destroy this w = close this w /\
  close this w = ((h_close h).1, update this (holding k (h_close h).2 c) w) /\
  (h_closed (h_close h).2 = true ->
   let w1 := (close this w).2 in
   next this w1 = (js.Resolved js.null, w1) /\
   hasNext this w1 = (js.Resolved false, w1)).
Proof.
  intros Hc Hcase.
  assert (Hclose : close this w =
            ((h_close h).1, update this (holding k (h_close h).2 c) w)).
  { destruct Hcase as [[Hh ->]|(Hh & -> & h0 & h1 & h2 & Hf & H1 & H2 & ->)].
    - unfold close. by rewrite (then_realized _ this w c h).
    - unfold close. by rewrite (then_unrealized _ this w c h0 h1 h2). }
  split_and!; [done|done|].
  intros Hclosed. rewrite Hclose. simpl.
  assert (Hlook : instances (update this (holding k (h_close h).2 c) w) !! this
                  = Some (holding k (h_close h).2 c))
    by (by apply lookup_update).
  unfold next, hasNext.
  rewrite !(then_realized _ this _ _ _ Hlook eq_refl).
  rewrite Hclosed. simpl.
  split; f_equal; apply update_id; exact Hlook.
Qed.

End facts.

(** *** The claims at concrete inputs *)

(** C6 on a cursor configured with [limit(5)] and a flag: the first
    [next()] realizes a handle with the limit and then the flag applied. *)
Lemma cursor_realized_once_witness :
  exists c h0 h1 h2,
    instances configured !! 0%nat = Some c /\ cursor c = None /\
    cursorFactory c (factoryCalls c) = js.Resolved (Some h0) /\
    apply_options (_options c) h0 = Some h1 /\
    add_flags (_flags c) h1 = Some h2 /\
    MemCursor.applied h2 = [(limit, js.number 5)] /\
    MemCursor.flags h2 = [("tailable", js.boolean true)] /\
    (call Next 0 configured =
       update 0 (holding 1 (use Next (_options c) (h_on_close h2)) c)
              configured /\
     (exists c' h,
        instances (invokes [Set_ limit (js.number 1); Consume HasNext;
                            Close; Consume Next] 0
                           (call Next 0 configured)) !! 0%nat = Some c' /\
        cursor c' = Some h /\ factoryCalls c' = S (factoryCalls c)) /\
     (forall (w' : @Cursor.world MemCursor.t string) c' h m',
        instances w' !! 0%nat = Some c' -> cursor c' = Some h ->
        call m' 0 w' =
          update 0 (holding 0 (use m' (_options c') h) c') w')).
Proof.
  do 4 eexists.
  split; [by vm_compute|]. split; [by vm_compute|].
  split; [by vm_compute|]. split; [by vm_compute|].
  split; [by vm_compute|]. split; [by vm_compute|].
  split; [by vm_compute|].
  eapply (cursor_realized_once configured 0); by vm_compute.
Defined.

(** C7.  The setters are arrow functions that each constructor installs on
    [Cursor.prototype], closed over its own [this].  With two cursors
    constructed, [limit(5)] called on the first one before it is consumed
    returns the second one and is recorded there; the first [next()] on the
    first cursor realizes a handle to which no limit has been applied; and
    a setter called on the first cursor after that [next()] returns the
    second cursor again. *)
Theorem setter_goes_to_last_instance :
  exists w c h c' w',
    (new (MemCursor.factory [js.obj 1]) nothing).1 = 0%nat /\
    (new (MemCursor.factory [js.obj 2])
         (new (MemCursor.factory [js.obj 1]) nothing).2).1 = 1%nat /\
    setter limit (js.number 5) 0 two_cursors = Some (1%nat, w) /\
    instances (next 0 w).2 !! 0%nat = Some c /\
    _options c = [] /\ cursor c = Some h /\ MemCursor.applied h = [] /\
    instances w !! 1%nat = Some c' /\
    _options c' = [(limit, js.number 5)] /\
    setter skip (js.number 1) 0 (next 0 w).2 = Some (1%nat, w').
Proof.
  do 5 eexists.
  split; [by vm_compute|]. split; [by vm_compute|].
  split; [by vm_compute|]. split; [by vm_compute|].
  split; [by vm_compute|]. split; [by vm_compute|].
  split; [by vm_compute|]. split; [by vm_compute|].
  split; by vm_compute.
Qed.

(** C8, as stated, fails: [close] on a cursor that was never realized calls
    the factory and leaves the cursor realized, holding a closed handle. *)
Lemma close_realizes_first :
  exists c0 c1 h,
    instances configured !! 0%nat = Some c0 /\
    cursor c0 = None /\ factoryCalls c0 = 0%nat /\
    instances (close 0 configured).2 !! 0%nat = Some c1 /\
    factoryCalls c1 = 1%nat /\ cursor c1 = Some h /\
    MemCursor.applied h = [(limit, js.number 5)] /\
    MemCursor.closed h = true /\
    (destroy 0 configured).2 = (close 0 configured).2.
Proof.
  do 3 eexists.
  split; [by vm_compute|]. split; [by vm_compute|].
  split; [by vm_compute|]. split; [by vm_compute|].
  split; [by vm_compute|]. split; [by vm_compute|].
  split; [by vm_compute|]. split; by vm_compute.
Qed.

(** C8, as amended, on a cursor that was never realized. *)
Lemma close_then_end_witness :
  exists c h h0 h1 h2,
    instances configured !! 0%nat = Some c /\
    (cursor c = None /\
     cursorFactory c (factoryCalls c) = js.Resolved (Some h0) /\
     apply_options (_options c) h0 = Some h1 /\
     add_flags (_flags c) h1 = Some h2 /\ h = h_on_close h2) /\
    h_closed (h_close h).2 = true /\
    (destroy 0 configured = close 0 configured /\
     close 0 configured =
       ((h_close h).1, update 0 (holding 1 (h_close h).2 c) configured) /\
     next 0 (close 0 configured).2 =
       (js.Resolved js.null, (close 0 configured).2) /\
     hasNext 0 (close 0 configured).2 =
       (js.Resolved false, (close 0 configured).2)).
Proof.
  do 5 eexists.
  split; [by vm_compute|].
  split; [split_and!; by vm_compute|].
  split; [by vm_compute|].
  match goal with
  | |- context [holding 1 (h_close ?h).2 ?c] =>
      destruct (close_then_end configured 0 c 1 h) as (Hd & Hc & Hn)
  end.
  - by vm_compute.
  - right. split; [by vm_compute|]. split; [done|].
    do 3 eexists. split_and!; by vm_compute.
  - split; [exact Hd|]. split; [exact Hc|]. apply Hn. by vm_compute.
Defined.

End CursorFacts.

(** ** Further properties of the batch accumulator *)

Module BatchingFacts.

Import Bulk BulkSpec BulkFacts Batching.

Lemma all_ops_command_of b k ops : all_ops (command_of b k ops) = ops.
Proof.
  unfold all_ops, ops_of, Command.getBulkCollection. simpl.
  destruct k; simpl;
    rewrite ?lookup_singleton_eq, ?lookup_singleton_ne by done; simpl;
    by rewrite ?app_nil_r.
Qed.

Lemma tracks_step b0 st b i :
  tracks b0 st b ->
  exists b', perform i b = Some b' /\
             tracks b0 (step (named (colName b0)) st (item i)) b'.
Proof.
  intros (Hs & Hh & Hc & Hcur).
  assert (Hcol : colName b = colName b0) by (by destruct Hs).
  assert (Hcmd : forall k ops, command_of b k ops = command_of b0 k ops)
    by (intros; by apply command_of_config).
  assert (Hlen : length (heap b) = length (st.1 ++ option_list st.2))
    by (by rewrite Hh, length_fmap).
  destruct st as [closed [[k0 ops]|]]; simpl in *.
  - assert (Hlook : heap b !! length closed = Some (command_of b k0 ops)).
    { rewrite Hh, Hcmd, fmap_app. simpl.
      apply list_lookup_middle. by rewrite length_fmap. }
    rewrite length_app in Hlen. simpl in Hlen.
    unfold step. simpl. fold (intent_kind i).
    destruct (named (colName b0) && bool_decide (k0 = intent_kind i)
              && negb (Nat.eqb (length ops) MAX_BULK_SIZE)) eqn:Hcond.
    + apply andb_prop in Hcond as [Hcond Hroom].
      apply andb_prop in Hcond as [Hnamed Hk].
      apply bool_decide_eq_true_1 in Hk as ->.
      apply negb_true_iff, Nat.eqb_neq in Hroom.
      unfold named in Hnamed. rewrite <- Hcol in Hnamed.
      apply negb_true_iff, String.eqb_neq in Hnamed.
      eexists. split; [by eapply perform_keep|].
      split_and!; simpl; [done| |done|by rewrite Hcur].
      rewrite Hh, Hcmd, !fmap_app. simpl.
      rewrite insert_app_r_alt by (by rewrite length_fmap).
      by rewrite length_fmap, Nat.sub_diag.
    + eexists. split.
      { eapply perform_flush; [done|done|].
        destruct (decide (k0 = intent_kind i)) as [->|]; [|by left].
        right. rewrite bool_decide_eq_true_2, andb_true_r in Hcond by done.
        apply andb_false_iff in Hcond as [Hnamed|Hfull].
        - left. unfold named in Hnamed. rewrite <- Hcol in Hnamed.
          by apply negb_false_iff, String.eqb_eq in Hnamed.
        - right. by apply negb_false_iff, Nat.eqb_eq in Hfull. }
      split_and!; simpl; [done| | |].
      * rewrite Hh, Hcmd. by rewrite (fmap_app _ (closed ++ [(k0, ops)])).
      * rewrite Hc, length_app. simpl. by rewrite seq_app.
      * rewrite Hlen, length_app. done.
  - unfold step. simpl. fold (intent_kind i).
    rewrite app_nil_r in Hh, Hlen.
    eexists. split; [by eapply perform_fresh|].
    split_and!; simpl; [done| |done|by rewrite Hlen].
    rewrite Hh, Hcmd. by rewrite fmap_app.
Qed.

Lemma tracks_accumulate b0 l st b :
  tracks b0 st b ->
  exists b', accumulate l b = Some b' /\
             tracks b0 (fold_left (step (named (colName b0))) (item <$> l) st) b'.
Proof.
  revert st b. induction l as [|i l IH]; intros st b Ht; simpl.
  - by exists b.
  - destruct (tracks_step b0 st b i Ht) as (b1 & -> & Ht1). simpl.
    by apply IH.
Qed.

Lemma tracks_commands b0 st b :
  tracks b0 st b ->
  commands (pushCurrentCmd b) =
  (fun g : batch => command_of b0 g.1 g.2) <$> (st.1 ++ option_list st.2).
Proof.
  intros (Hs & Hh & Hc & Hcur). unfold pushCurrentCmd, commands.
  rewrite Hcur. rewrite <- Hh.
  destruct st as [closed [g|]]; simpl in *.
  - rewrite Hc.
    replace (seq 0 (length closed) ++ [length closed])
      with (seq (length (@nil Command.t)) (length (heap b))).
    + apply (omap_lookup_seq []).
    + rewrite Hh, length_fmap, length_app. simpl. by rewrite seq_app.
  - rewrite Hc.
    replace (seq 0 (length closed))
      with (seq (length (@nil Command.t)) (length (heap b))).
    + apply (omap_lookup_seq []).
    + by rewrite Hh, length_fmap, app_nil_r.
Qed.

Lemma step_items named st o :
  let items st := concat (snd <$> (st.1 ++ option_list st.2)) in
  items (step named st o) = items st ++ [o].
Proof.
  destruct st as [closed [[k ops]|]]; unfold step; simpl.
  - destruct (named && bool_decide (k = kind_of o)
              && negb (Nat.eqb (length ops) MAX_BULK_SIZE)); simpl.
    + rewrite !fmap_app, !concat_app. simpl.
      by rewrite !app_nil_r, app_assoc.
    + rewrite !fmap_app, !concat_app. simpl.
      by rewrite !app_nil_r.
  - rewrite !fmap_app, !concat_app. simpl. by rewrite !app_nil_r.
Qed.

Lemma fold_step_items named items st :
  concat (snd <$> ((fold_left (step named) items st).1
                   ++ option_list (fold_left (step named) items st).2)) =
  concat (snd <$> (st.1 ++ option_list st.2)) ++ items.
Proof.
  revert st. induction items as [|o items IH]; intros st; simpl.
  - by rewrite app_nil_r.
  - rewrite IH, (step_items named st o). by rewrite <- app_assoc.
Qed.

Lemma tracks_new col ord wc : tracks (new col ord wc) ([], None) (new col ord wc).
Proof. by repeat split. Qed.

Lemma step_open named st o : is_Some (step named st o).2.
Proof.
  destruct st as [closed [[k ops]|]]; unfold step; simpl; [|by eexists].
  destruct (_ && _ && _); by eexists.
Qed.

Lemma fold_step_open named items o st :
  is_Some (fold_left (step named) (o :: items) st).2.
Proof.
  simpl. generalize (step_open named st o). generalize (step named st o).
  induction items as [|o' items IH]; intros st' Hst'; simpl; [done|].
  apply IH, step_open.
Qed.

Lemma perform_cases i b :
  wf b ->
  exists b', perform i b = Some b' /\ wf b' /\ same_config b b' /\
    ((heap b' = heap b ++ [command_of b (intent_kind i) [item i]] /\
      currentCmd b' = Some (length (heap b))) \/
     (exists r ops,
        currentCmd b = Some r /\ currentCmd b' = Some r /\
        heap b !! r = Some (command_of b (intent_kind i) ops) /\
        heap b' = <[r := command_of b (intent_kind i) (ops ++ [item i])]>
                    (heap b))).
Proof.
  intros Hwf. destruct (wf_perform i b Hwf) as (b' & Hp & Hwf' & Hs).
  exists b'. split_and!; try done.
  destruct Hwf as [Hc Hcur Hh].
  destruct (currentCmd b) as [r|] eqn:Hr.
  - pose proof (Hcur r eq_refl) as Hlt.
    destruct (lookup_lt_is_Some_2 _ _ Hlt) as [c Hlook].
    pose proof (Forall_lookup_1 _ _ _ _ Hh Hlook) as (k0 & ops & -> & Hk & Hlen).
    destruct (decide (k0 <> intent_kind i \/ colName b = EmptyString \/
                      length ops = MAX_BULK_SIZE)) as [Hflush|Hkeep].
    + rewrite (perform_flush i b r k0 ops) in Hp by done.
      injection Hp as <-. by left.
    + assert (k0 = intent_kind i) as ->.
      { destruct (decide (k0 = intent_kind i)); [done|]. tauto. }
      rewrite (perform_keep i b r ops) in Hp by tauto.
      injection Hp as <-. right. by exists r, ops.
  - rewrite perform_fresh in Hp by done. injection Hp as <-. by left.
Qed.

Lemma length_concat_insert {A B} (f : A -> list B) l r c c' x :
  l !! r = Some c -> f c' = f c ++ [x] ->
  length (concat (f <$> <[r := c']> l)) = S (length (concat (f <$> l))).
Proof.
  revert r. induction l as [|a l IH]; intros [|r] Hl Hf; simpl in *; try done.
  - injection Hl as ->. rewrite Hf, !length_app. simpl. lia.
  - rewrite !length_app. specialize (IH r Hl Hf). unfold fmap in *. lia.
Qed.

Lemma wf_api_calls l b :
  wf b -> exists b', api_calls l b = Some b' /\ wf b' /\ same_config b b'.
Proof.
  revert b. induction l as [|a l IH]; intros b Hwf; simpl.
  - exists b. split_and!; [done|done|apply same_config_refl].
  - assert (exists b1, api_call a b = Some b1 /\ wf b1 /\ same_config b b1)
      as (b1 & -> & Hwf1 & Hs1).
    { destruct a as [i| |]; simpl.
      - apply wf_perform, Hwf.
      - eexists. split; [done|]. split; [by apply wf_tojson|].
        unfold tojson. simpl. by destruct (currentCmd b); repeat split.
      - eexists. split; [done|]. unfold toString.
        destruct (tojson b) as [o b1] eqn:Ht. simpl.
        replace b1 with (tojson b).2 by (by rewrite Ht).
        split; [by apply wf_tojson|].
        unfold tojson. simpl. by destruct (currentCmd b); repeat split. }
    simpl. destruct (IH b1 Hwf1) as (b2 & -> & Hwf2 & Hs2).
    exists b2. split_and!; [done|done|by eapply same_config_trans].
Qed.

Section each_rejected.

Context {Store : Type}.
Variable command : Command.t -> Store -> js.outcome CommandResult.t * Store.
Variable dcf : bool.

Lemma each_rejected cmds s res lg err s' res' lg' :
  each command dcf cmds s res lg = (js.Rejected err, s', res', lg') ->
  exists pre cmd rest,
    cmds = pre.*1 ++ cmd :: rest /\
    lg' = lg ++ pre ++ [(cmd, js.Rejected err)] /\
    Forall (fun e => answered e.2) pre /\
    Result.writeErrors res' =
      Result.writeErrors res ++ concat (reported <$> pre.*2) /\
    Result.ok res' = Result.ok res.
Proof.
  revert s res lg. induction cmds as [|cmd cmds IH]; intros s res lg; simpl.
  - done.
  - destruct (command cmd s) as [[cr|err0] s1] eqn:Hc.
    + intros (pre & cmd' & rest & -> & -> & Hans & Hwe & Hok)%IH.
      exists ((cmd, js.Resolved cr) :: pre), cmd', rest.
      split_and!; simpl.
      * done.
      * by rewrite <- !app_assoc.
      * by constructor.
      * rewrite Hwe, setResult_writeErrors. by rewrite <- app_assoc.
      * rewrite Hok. unfold setResult. rewrite first_key_not_a_kind. simpl.
        by destruct (CommandResult.writeErrors cr).
    + intros [= <- <- <- <-]. exists [], cmd, cmds.
      split_and!; simpl; try done. by rewrite app_nil_r.
Qed.

End each_rejected.

(** *** Further properties *)

(** X1.  Intents accumulated into a new instance become the commands that
    the batching on lists describes: a new command when the kind changes or
    when the open command holds [MAX_BULK_SIZE] items (and at every intent
    when the collection name is empty), each command of the kind of its
    items, in order. *)
Theorem accumulate_batches (col : string) (ord : bool) (wc : js.value)
    (l : list intent) :
  exists b,
    accumulate l (new col ord wc) = Some b /\
    commands (pushCurrentCmd b) =
      (fun g : batch => command_of (new col ord wc) g.1 g.2)
        <$> batches (named col) (item <$> l).
Proof.
  destruct (tracks_accumulate _ l _ _ (tracks_new col ord wc))
    as (b & Hacc & Ht).
  exists b. split; [done|]. by apply tracks_commands.
Qed.

(** X2.  Nothing is lost, repeated or reordered between accumulation and
    submission: the items of the commands that [execute] walks are the items
    of the intents, in order, and what a run has submitted is always a
    prefix of them, whatever the connection and the store do. *)
Theorem execute_keeps_order {Store}
    (command : Command.t -> Store -> js.outcome CommandResult.t * Store)
    (dcf : bool) (connect : js.outcome (option Store))
    (col : string) (ord : bool) (wc : js.value) (l : list intent) :
  exists b,
    accumulate l (new col ord wc) = Some b /\
    concat (all_ops <$> commands (pushCurrentCmd b)) = item <$> l /\
    concat (all_ops <$> sent (execute command dcf connect b))
      `prefix_of` item <$> l.
Proof.
  destruct (tracks_accumulate _ l _ _ (tracks_new col ord wc))
    as (b & Hacc & Ht).
  exists b. split; [done|].
  assert (Hall : concat (all_ops <$> commands (pushCurrentCmd b)) = item <$> l).
  { rewrite (tracks_commands _ _ _ Ht), <- list_fmap_compose.
    erewrite list_fmap_ext; [apply (fold_step_items _ _ ([], None))|].
    intros _ g _. simpl. apply all_ops_command_of. }
  split; [done|].
  destruct (execute_facts command dcf connect b) as (_ & [rest Hpre] & _).
  rewrite <- Hall, Hpre, fmap_app, concat_app. by eexists.
Qed.

(** X4.  [tojson] lists the open command without closing it, and [execute]
    lists it again: run after a [tojson], [execute] submits the open command
    twice. *)
Theorem tojson_then_execute_repeats {Store}
    (command : Command.t -> Store -> js.outcome CommandResult.t * Store)
    (dcf : bool) (s : Store) (b : t) (r : nat) (c : Command.t) :
  currentCmd b = Some r -> heap b !! r = Some c ->
  Forall (fun e => answered e.2)
         (log (execute command dcf (js.Resolved (Some s)) (tojson b).2)) ->
  sent (execute command dcf (js.Resolved (Some s)) (tojson b).2)
    = commands b ++ [c; c].
Proof.
  intros Hr Hc Hans.
  destruct (execute_answered command dcf s _ Hans) as [_ ->].
  unfold tojson, pushCurrentCmd, commands. simpl. rewrite Hr. simpl.
  rewrite Hr. simpl. rewrite !omap_app. simpl. rewrite Hc.
  by rewrite <- app_assoc.
Qed.

(** X5.  [execute] neither empties the command list nor closes the open
    command: on the instance it leaves behind, a second [execute] walks every
    command of the first run again and then the open command once more. *)
Theorem execute_twice_resubmits {Store}
    (command : Command.t -> Store -> js.outcome CommandResult.t * Store)
    (dcf : bool) (connect : js.outcome (option Store)) (b : t) :
  let b1 := after (execute command dcf connect b) in
  currentCmd b1 = currentCmd b /\
  heap b1 = heap b /\
  commands (pushCurrentCmd b1) =
    commands (pushCurrentCmd b)
      ++ omap (fun r => heap b !! r) (option_list (currentCmd b)).
Proof.
  destruct (execute_facts command dcf connect b) as (-> & _).
  unfold pushCurrentCmd, commands.
  destruct (currentCmd b) as [r|] eqn:Hr; simpl; rewrite Hr; simpl.
  - split_and!; [done|done|]. by rewrite !omap_app.
  - split_and!; [done|done|]. by rewrite app_nil_r.
Qed.

(** X6.  A rejection by the store ends the run: the promise of [execute] is
    rejected with the store's error, the rejected command is the last one
    submitted, the commands after it are never submitted, and the result
    object, which is dropped, holds the write errors of the commands
    answered before and no [ok]. *)
Theorem execute_stops_at_rejection {Store}
    (command : Command.t -> Store -> js.outcome CommandResult.t * Store)
    (dcf : bool) (s : Store) (b : t) (err : js.value) :
  settled (execute command dcf (js.Resolved (Some s)) b) = js.Rejected err ->
  let r := execute command dcf (js.Resolved (Some s)) b in
  exists pre cmd rest,
    commands (pushCurrentCmd b) = pre.*1 ++ cmd :: rest /\
    log r = pre ++ [(cmd, js.Rejected err)] /\
    Forall (fun e => answered e.2) pre /\
    Result.writeErrors (result r) = concat (reported <$> pre.*2) /\
    Result.ok (result r) = js.undefined.
Proof.
  unfold execute. simpl.
  destruct (each command dcf (commands (pushCurrentCmd b)) s Result.init [])
    as [[[o s'] res'] lg'] eqn:Heach.
  destruct o as [[]|err0]; simpl; [done|]. intros [= ->].
  apply each_rejected in Heach as (pre & cmd & rest & Hc & -> & Hans & Hwe & Hok).
  by exists pre, cmd, rest.
Qed.

(** X7.  Against a [null] connection nothing is ever submitted; [execute]
    still resolves, with [ok = 1] and every count zero, when nothing was
    accumulated, and is rejected with a TypeError as soon as one intent
    was. *)
Theorem execute_null_connection {Store}
    (command : Command.t -> Store -> js.outcome CommandResult.t * Store)
    (dcf : bool) (col : string) (ord : bool) (wc : js.value)
    (l : list intent) :
  exists b,
    accumulate l (new col ord wc) = Some b /\
    sent (execute command dcf (js.Resolved None) b) = [] /\
    settled (execute command dcf (js.Resolved None) b) =
      match l with
      | [] => js.Resolved (Result.set_ok (js.number 1) Result.init)
      | _ :: _ => js.Rejected js.TypeError
      end.
Proof.
  destruct (tracks_accumulate _ l _ _ (tracks_new col ord wc))
    as (b & Hacc & Ht).
  exists b. split; [done|].
  pose proof (tracks_commands _ _ _ Ht) as Hcmds.
  unfold execute, sent. simpl.
  destruct l as [|i l].
  - simpl in Hcmds. by rewrite Hcmds.
  - pose proof (fold_step_open (named col) (item <$> l) (item i) ([], None))
      as [g Hg].
    change (item <$> i :: l) with (item i :: (item <$> l)) in Hcmds.
    change (colName (new col ord wc)) with col in Hcmds.
    destruct (fold_left (step (named col)) (item i :: (item <$> l)) ([], None))
      as [closed o]. simpl in Hg. subst o.
    rewrite Hcmds. by destruct closed.
Qed.

(** X8.  [insert] stores the document with an [_id] that is truthy: the
    document's own when that is truthy, a new ObjectId otherwise (also when
    the document carries a falsy [_id] such as [0], the empty string or
    [null]); every other field is stored as given. *)
Theorem insert_assigns_id (fresh : nat) (doc : gmap string js.value) (b : t) :
  wf b ->
  exists b' r ops v,
    insert fresh doc b = Some b' /\
    currentCmd b' = Some r /\
    heap b' !! r =
      Some (command_of b Insert (ops ++ [OpInsert (with_id fresh doc)])) /\
    with_id fresh doc !! "_id" = Some v /\ js.truthy v = true /\
    (if js.truthy (default js.undefined (doc !! "_id"))
     then with_id fresh doc = doc
     else v = js.oid fresh) /\
    (forall k, k <> "_id" -> with_id fresh doc !! k = doc !! k).
Proof.
  intros Hwf.
  destruct (perform_cases (DoInsert fresh doc) b Hwf)
    as (b' & Hp & Hwf' & Hs & Hcase).
  assert (Hid : exists v, with_id fresh doc !! "_id" = Some v /\
            js.truthy v = true /\
            (if js.truthy (default js.undefined (doc !! "_id"))
             then with_id fresh doc = doc else v = js.oid fresh)).
  { unfold with_id, js.or.
    destruct (js.truthy (default js.undefined (doc !! "_id"))) eqn:Ht.
    - exists (default js.undefined (doc !! "_id")).
      rewrite lookup_insert_eq. split_and!; [done|done|].
      apply insert_id. destruct (doc !! "_id"); [done|discriminate].
    - exists (js.oid fresh). by rewrite lookup_insert_eq. }
  destruct Hid as (v & Hv & Htr & Hor).
  assert (Hother : forall k, k <> "_id" -> with_id fresh doc !! k = doc !! k).
  { intros k Hk. unfold with_id. by rewrite lookup_insert_ne. }
  simpl in Hp.
  destruct Hcase as [[Hh Hcur]|(r & ops & Hr & Hr' & Hlook & Hh)].
  - exists b', (length (heap b)), [], v. split_and!; try done.
    rewrite Hh. by apply list_lookup_middle.
  - exists b', r, ops, v. split_and!; try done.
    rewrite Hh. apply list_lookup_insert_eq. by eapply lookup_lt_Some.
Qed.

(** X9.  Each accumulating call ([insert], or a terminal call of the
    builder that [find] returns) adds exactly one item, at the end of the
    open command, and leaves every other command as it was. *)
Theorem perform_adds_one (i : intent) (b : t) :
  wf b ->
  exists b' r ops,
    perform i b = Some b' /\ wf b' /\
    currentCmd b' = Some r /\
    heap b' !! r = Some (command_of b (intent_kind i) (ops ++ [item i])) /\
    length (stored b') = S (length (stored b)) /\
    (forall r' c, r' <> r -> heap b !! r' = Some c -> heap b' !! r' = Some c).
Proof.
  intros Hwf.
  destruct (perform_cases i b Hwf) as (b' & Hp & Hwf' & Hs & Hcase).
  destruct Hcase as [[Hh Hcur]|(r & ops & Hr & Hr' & Hlook & Hh)].
  - exists b', (length (heap b)), []. split_and!; try done.
    + rewrite Hh. by apply list_lookup_middle.
    + unfold stored. rewrite Hh, fmap_app, concat_app, length_app. simpl.
      rewrite all_ops_command_of. simpl. lia.
    + intros r' c Hne Hl. rewrite Hh. by apply lookup_app_l_Some.
  - exists b', r, ops. split_and!; try done.
    + rewrite Hh. apply list_lookup_insert_eq. by eapply lookup_lt_Some.
    + unfold stored. rewrite Hh.
      apply (length_concat_insert _ _ _ _ _ (item i) Hlook).
      by rewrite !all_ops_command_of.
    + intros r' c Hne Hl. rewrite Hh. by rewrite list_lookup_insert_ne.
Qed.

(** X10.  Whatever accumulating calls and [tojson] / [toString] calls are
    made on a new instance, none throws, and every command that a later
    [execute] submits holds items of one kind only, at most
    [MAX_BULK_SIZE] of them. *)
Theorem api_calls_keep_commands_kinded {Store}
    (command : Command.t -> Store -> js.outcome CommandResult.t * Store)
    (dcf : bool) (connect : js.outcome (option Store))
    (col : string) (ord : bool) (wc : js.value) (l : list api) :
  exists b,
    api_calls l (new col ord wc) = Some b /\
    Forall (kinded b) (sent (execute command dcf connect b)).
Proof.
  destruct (wf_api_calls l _ (wf_new col ord wc)) as (b & Hb & Hwf & _).
  exists b. split; [done|]. by apply execute_sends_kinded.
Qed.

(** X3.  With a collection name that is not empty, [N] intents of one
    kind fill [ceil(N / 1000)] commands of at most [MAX_BULK_SIZE] items
    each, which hold the items in the order of the intents; and these are
    the commands that [execute] submits when the store answers each of
    them. *)
Theorem single_kind_fills_commands {Store}
    (command : Command.t -> Store -> js.outcome CommandResult.t * Store)
    dcf s col ord wc k l :
  col <> EmptyString ->
  Forall (fun j => intent_kind j = k) l ->
  exists b,
    accumulate l (new col ord wc) = Some b /\
    let cs := commands (pushCurrentCmd b) in
    length cs = ceil_div (length l) MAX_BULK_SIZE /\
    Forall (fun c => (length (ops_of k c) <= MAX_BULK_SIZE)%nat) cs /\
    concat (ops_of k <$> cs) = item <$> l /\
    let r := execute command dcf (js.Resolved (Some s)) b in
    (Forall (fun e => answered e.2) (log r) -> sent r = cs).
Proof. apply execute_single_kind. Qed.

(** *** The further properties at concrete inputs *)

(** X3 on two inserts into [users]. *)
Lemma single_kind_fills_commands_witness :
  "users" <> EmptyString /\
  Forall (fun j => intent_kind j = Insert) [DoInsert 0 ∅; DoInsert 1 ∅] /\
  exists b,
    accumulate [DoInsert 0 ∅; DoInsert 1 ∅] (new "users" true js.undefined)
      = Some b /\
    let cs := commands (pushCurrentCmd b) in
    length cs = ceil_div (length [DoInsert 0 ∅; DoInsert 1 ∅]) MAX_BULK_SIZE /\
    Forall (fun c => (length (ops_of Insert c) <= MAX_BULK_SIZE)%nat) cs /\
    concat (ops_of Insert <$> cs) = item <$> [DoInsert 0 ∅; DoInsert 1 ∅] /\
    let r := execute (answering 1 None) false (js.Resolved (Some tt)) b in
    (Forall (fun e => answered e.2) (log r) -> sent r = cs).
Proof.
  split; [done|]. split; [by repeat constructor|].
  apply (single_kind_fills_commands (answering 1 None) false tt "users" true
           js.undefined Insert [DoInsert 0 ∅; DoInsert 1 ∅]);
    [done|by repeat constructor].
Defined.

(** X4 on the bulk with an insert command listed and a delete command
    open. *)
Lemma tojson_then_execute_repeats_witness :
  exists c,
    currentCmd insert_then_remove = Some 1%nat /\
    heap insert_then_remove !! 1%nat = Some c /\
    Forall (fun e => answered e.2)
      (log (execute (answering 1 None) false (js.Resolved (Some tt))
                    (tojson insert_then_remove).2)) /\
    sent (execute (answering 1 None) false (js.Resolved (Some tt))
                  (tojson insert_then_remove).2)
      = commands insert_then_remove ++ [c; c].
Proof.
  eexists. split; [by vm_compute|]. split; [by vm_compute|].
  split; [vm_compute; repeat constructor|].
  eapply (tojson_then_execute_repeats (answering 1 None) false tt
            insert_then_remove 1);
    [by vm_compute|by vm_compute|vm_compute; repeat constructor].
Defined.

(** X6 on the same bulk, the store answering the first command and
    rejecting the second. *)
Lemma execute_stops_at_rejection_witness :
  settled (execute (answering_until 1 1 None) false (js.Resolved (Some 0%nat))
                   insert_then_remove) = js.Rejected (js.str "unreachable") /\
  let r := execute (answering_until 1 1 None) false (js.Resolved (Some 0%nat))
                   insert_then_remove in
  exists pre cmd rest,
    commands (pushCurrentCmd insert_then_remove) = pre.*1 ++ cmd :: rest /\
    log r = pre ++ [(cmd, js.Rejected (js.str "unreachable"))] /\
    Forall (fun e => answered e.2) pre /\
    Result.writeErrors (result r) = concat (reported <$> pre.*2) /\
    Result.ok (result r) = js.undefined.
Proof.
  split; [by vm_compute|].
  apply (execute_stops_at_rejection (answering_until 1 1 None) false 0%nat
           insert_then_remove).
  by vm_compute.
Defined.

(** X8 on a document whose [_id] is [0]. *)
Lemma insert_assigns_id_witness :
  wf (new "users" true js.undefined) /\
  exists b' r ops v,
    insert 7 {["_id" := js.number 0]} (new "users" true js.undefined)
      = Some b' /\
    currentCmd b' = Some r /\
    heap b' !! r =
      Some (command_of (new "users" true js.undefined) Insert
              (ops ++ [OpInsert (with_id 7 {["_id" := js.number 0]})])) /\
    with_id 7 {["_id" := js.number 0]} !! "_id" = Some v /\
    js.truthy v = true /\
    (if js.truthy (default js.undefined
                     (({["_id" := js.number 0]} : gmap string js.value)
                        !! "_id"))
     then with_id 7 {["_id" := js.number 0]} = {["_id" := js.number 0]}
     else v = js.oid 7) /\
    (forall k, k <> "_id" ->
       with_id 7 {["_id" := js.number 0]} !! k =
       ({["_id" := js.number 0]} : gmap string js.value) !! k).
Proof.
  split; [apply wf_new|].
  apply (insert_assigns_id 7 {["_id" := js.number 0]}
           (new "users" true js.undefined)).
  apply wf_new.
Defined.

Lemma wf_insert_then_remove : wf insert_then_remove.
Proof.
  destruct (wf_accumulate [DoInsert 0 ∅; DoRemove (js.obj 1) false]
              _ (wf_new "users" true js.undefined)) as (b & Hb & Hwf & _).
  unfold insert_then_remove. by rewrite Hb.
Qed.

(** X9 on the bulk with an insert command listed and a delete command
    open: one more removal joins the open command. *)
Lemma perform_adds_one_witness :
  wf insert_then_remove /\
  exists b' r ops,
    perform (DoRemove (js.obj 2) true) insert_then_remove = Some b' /\
    wf b' /\
    currentCmd b' = Some r /\
    heap b' !! r =
      Some (command_of insert_then_remove
              (intent_kind (DoRemove (js.obj 2) true))
              (ops ++ [item (DoRemove (js.obj 2) true)])) /\
    length (stored b') = S (length (stored insert_then_remove)) /\
    (forall r' c, r' <> r ->
       heap insert_then_remove !! r' = Some c -> heap b' !! r' = Some c).
Proof.
  split; [apply wf_insert_then_remove|].
  apply (perform_adds_one (DoRemove (js.obj 2) true) insert_then_remove).
  apply wf_insert_then_remove.
Defined.

End BatchingFacts.

(** ** Further properties of the cursor adapter *)

Module PullingFacts.

Import Cursor CursorSpec CursorFacts Pulling.

Section facts.

Context {H Flag : Type} `{EqDecision Flag} `{FindCursor H Flag}.

Local Abbreviation instance := (@Cursor.t H Flag).
Local Abbreviation world := (@Cursor.world H Flag).

Lemma next_realized this (w : world) c h :
  instances w !! this = Some c -> cursor c = Some h ->
  next this w =
  (if h_closed h || h_killed h then js.Resolved js.null else (h_next h).1,
   update this
     (holding 0 (if h_closed h || h_killed h then h else (h_next h).2) c) w).
Proof.
  intros Hc Hh. unfold next. rewrite (then_realized _ this w c h) by done.
  by destruct (h_closed h || h_killed h).
Qed.

Lemma map_loop_S {B} fuel (fn : js.value -> js.outcome B) acc this
    (w : world) :
  map_loop (S fuel) fn acc this w =
  match next this w with
  | (js.Rejected _, w1) => Some (Pending, w1)
  | (js.Resolved doc, w1) =>
      if negb (js.truthy doc) then Some (Settled (js.Resolved acc), w1)
      else match fn doc with
           | js.Rejected _ => Some (Pending, w1)
           | js.Resolved x => map_loop fuel fn (acc ++ [x]) this w1
           end
  end.
Proof. done. Qed.

Lemma forEach_loop_S fuel (fn : js.value -> js.outcome unit) seen this
    (w : world) :
  forEach_loop (S fuel) fn seen this w =
  match next this w with
  | (js.Rejected _, w1) => Some (Pending, seen, w1)
  | (js.Resolved doc, w1) =>
      if negb (js.truthy doc)
      then Some (Settled (js.Resolved js.undefined), seen, w1)
      else match fn doc with
           | js.Rejected _ => Some (Pending, seen ++ [doc], w1)
           | js.Resolved _ => forEach_loop fuel fn (seen ++ [doc]) this w1
           end
  end.
Proof. done. Qed.

Lemma map_loop_pulls {B} (fn : js.value -> B) h docs e h' :
  pulls h docs e h' ->
  forall fuel this (w : world) c acc,
    (length docs < fuel)%nat ->
    instances w !! this = Some c -> cursor c = Some h ->
    map_loop fuel (fun d => js.Resolved (fn d)) acc this w =
    Some (match e with
          | Ended => Settled (js.Resolved (acc ++ (fn <$> docs)))
          | Failed => Pending
          end, update this (holding 0 h' c) w).
Proof.
  induction 1 as [h Hshut|h doc h' Hopen Hnext Hdoc|h err h' Hopen Hnext
                  |h doc h' docs e h'' Hopen Hnext Hdoc Hp IH];
    intros [|fuel] this w c acc Hfuel Hc Hh; cbn [length] in Hfuel; try lia;
    rewrite map_loop_S, (next_realized this w c h Hc Hh).
  - rewrite Hshut. simpl. by rewrite app_nil_r.
  - rewrite Hopen, Hnext. simpl. rewrite Hdoc. simpl. by rewrite app_nil_r.
  - by rewrite Hopen, Hnext.
  - rewrite Hopen, Hnext. cbn -[map_loop]. rewrite Hdoc. cbn -[map_loop].
    rewrite (IH fuel this _ (holding 0 h' c) (acc ++ [fn doc]));
      [|lia|by apply lookup_update|done].
    rewrite update_update. simpl. by rewrite <- app_assoc.
Qed.

Lemma forEach_loop_pulls (fn : js.value -> unit) h docs e h' :
  pulls h docs e h' ->
  forall fuel this (w : world) c seen,
    (length docs < fuel)%nat ->
    instances w !! this = Some c -> cursor c = Some h ->
    forEach_loop fuel (fun d => js.Resolved (fn d)) seen this w =
    Some (match e with
          | Ended => Settled (js.Resolved js.undefined)
          | Failed => Pending
          end, seen ++ docs, update this (holding 0 h' c) w).
Proof.
  induction 1 as [h Hshut|h doc h' Hopen Hnext Hdoc|h err h' Hopen Hnext
                  |h doc h' docs e h'' Hopen Hnext Hdoc Hp IH];
    intros [|fuel] this w c seen Hfuel Hc Hh; cbn [length] in Hfuel; try lia;
    rewrite forEach_loop_S, (next_realized this w c h Hc Hh).
  - rewrite Hshut. simpl. by rewrite app_nil_r.
  - rewrite Hopen, Hnext. simpl. rewrite Hdoc. simpl. by rewrite app_nil_r.
  - rewrite Hopen, Hnext. simpl. by rewrite app_nil_r.
  - rewrite Hopen, Hnext. cbn -[forEach_loop]. rewrite Hdoc.
    cbn -[forEach_loop].
    rewrite (IH fuel this _ (holding 0 h' c) (seen ++ [doc]));
      [|lia|by apply lookup_update|done].
    rewrite update_update. simpl. by rewrite <- app_assoc.
Qed.

Lemma map_loop_not_rejected {B} fuel (fn : js.value -> js.outcome B) acc this
    (w : world) p w' :
  map_loop fuel fn acc this w = Some (p, w') ->
  p = Pending \/ exists l, p = Settled (js.Resolved (acc ++ l)).
Proof.
  revert acc w. induction fuel as [|fuel IH]; intros acc w; simpl; [done|].
  destruct (next this w) as [[doc|err] w1]; [|intros [= <- <-]; by left].
  destruct (js.truthy doc); simpl.
  - destruct (fn doc) as [x|err]; [|intros [= <- <-]; by left].
    intros [->|[l ->]]%IH; [by left|right].
    exists (x :: l). by rewrite <- app_assoc.
  - intros [= <- <-]. right. exists []. by rewrite app_nil_r.
Qed.

Lemma forEach_loop_not_rejected fuel (fn : js.value -> js.outcome unit) seen
    this (w : world) p seen' w' :
  forEach_loop fuel fn seen this w = Some (p, seen', w') ->
  p = Pending \/ p = Settled (js.Resolved js.undefined).
Proof.
  revert seen w. induction fuel as [|fuel IH]; intros seen w; simpl; [done|].
  destruct (next this w) as [[doc|err] w1]; [|intros [= <- <- <-]; by left].
  destruct (js.truthy doc); simpl.
  - destruct (fn doc) as [x|err]; [|intros [= <- <- <-]; by left].
    apply IH.
  - intros [= <- <- <-]. by right.
Qed.

Lemma addCursorFlag_spec flag value this (w : world) c :
  instances w !! this = Some c ->
  addCursorFlag flag value this w =
  Some (this, update this (mk (cursorFactory c) (factoryCalls c) (_options c)
                              (assign flag value (_flags c)) (cursor c)) w).
Proof. intros Hc. unfold addCursorFlag. by rewrite Hc. Qed.

Lemma invoke_configures a this (w : world) i c :
  configures a -> instances w !! i = Some c ->
  exists c', instances (invoke a this w) !! i = Some c' /\
    cursor c' = cursor c /\ factoryCalls c' = factoryCalls c /\
    cursorFactory c' = cursorFactory c.
Proof.
  intros Ha Hc. destruct a as [m| | | |op data|flag value]; try done; simpl.
  - destruct (setter op data this w) as [[t w']|] eqn:Hs; simpl;
      [|by exists c].
    apply setter_spec in Hs as (Hp & c0 & Hc0 & ->).
    destruct (decide (i = t)) as [->|Hne].
    + rewrite Hc0 in Hc. injection Hc as <-.
      eexists. split; [by apply lookup_update|done].
    + exists c. unfold update. simpl.
      by rewrite list_lookup_insert_ne.
  - destruct (instances w !! this) as [c0|] eqn:Hc0.
    + rewrite (addCursorFlag_spec _ _ _ _ c0 Hc0). simpl.
      destruct (decide (i = this)) as [->|Hne].
      * rewrite Hc0 in Hc. injection Hc as <-.
        eexists. split; [by apply lookup_update|done].
      * exists c. unfold update. simpl.
        by rewrite list_lookup_insert_ne.
    + unfold addCursorFlag. rewrite Hc0. simpl. by exists c.
Qed.

Lemma getCursor_fails this (w : world) c :
  instances w !! this = Some c -> cursor c = None -> fails c ->
  exists err, getCursor this w = (js.Rejected err, update this (failed c) w).
Proof.
  intros Hc Hh Hf. unfold getCursor, fails in *. rewrite Hc, Hh.
  destruct (cursorFactory c (factoryCalls c)) as [[h0|]|err]; simpl.
  - rewrite Hf. by eexists.
  - by eexists.
  - by eexists.
Qed.

Lemma then_fails {A} (f : instance -> H -> js.outcome A * H) this (w : world)
    c :
  instances w !! this = Some c -> cursor c = None -> fails c ->
  exists err, then_ f this w = (js.Rejected err, update this (failed c) w).
Proof.
  intros Hc Hh Hf. unfold then_.
  destruct (getCursor_fails this w c Hc Hh Hf) as [err ->]. by exists err.
Qed.

Lemma assign_keys {K V} `{EqDecision K} (k : K) (v : V) o :
  (assign k v o).*1 = if decide (k ∈ o.*1) then o.*1 else o.*1 ++ [k].
Proof.
  induction o as [|[k' v'] o IH]; cbn [assign]; [done|].
  destruct (decide (k' = k)) as [->|Hne]; rewrite !fmap_cons; cbn [fst].
  - rewrite decide_True; [done|by left].
  - rewrite IH. destruct (decide (k ∈ o.*1)) as [Hin|Hnin].
    + rewrite decide_True; [done|by right].
    + rewrite decide_False; [done|].
      intros [Heq|Hin]%elem_of_cons; [by apply Hne|done].
Qed.

Lemma assign_NoDup {K V} `{EqDecision K} (k : K) (v : V) o :
  NoDup o.*1 -> NoDup (assign k v o).*1.
Proof.
  intros Hnd. rewrite assign_keys. destruct (decide (k ∈ o.*1)); [done|].
  apply NoDup_app. split_and!; [done| |apply NoDup_singleton].
  intros x Hx ->%list_elem_of_singleton. done.
Qed.

Lemma invokes_app l1 l2 this (w : world) :
  invokes (l1 ++ l2) this w = invokes l2 this (invokes l1 this w).
Proof. revert w. induction l1 as [|a l1 IH]; intros w; simpl; [done|apply IH]. Qed.

Lemma invokes_sets l this (w : world) c :
  prototype w = Some this -> instances w !! this = Some c ->
  NoDup (_options c).*1 ->
  exists c', instances (invokes (sets l) this w) !! this = Some c' /\
    prototype (invokes (sets l) this w) = Some this /\
    NoDup (_options c').*1 /\ cursor c' = cursor c /\
    factoryCalls c' = factoryCalls c /\ _flags c' = _flags c.
Proof.
  revert w c. induction l as [|[op data] l IH]; intros w c Hp Hc Hnd; simpl.
  - by exists c.
  - rewrite (setter_last op data w this c Hp Hc). simpl.
    edestruct (IH (update this
                     (mk (cursorFactory c) (factoryCalls c)
                         (assign op data (_options c)) (_flags c) (cursor c))
                     w)) as (c' & Hc' & Hp' & Hnd' & Hcur & Hcalls & Hfl);
      [done|by apply lookup_update|by apply assign_NoDup|].
    by exists c'.
Qed.

(** X11. [map(fn)] on a realized cursor: when the driver's handle yields
    the truthy documents [docs] and then ends, the promise resolves to [fn]
    of each of them, in order; when the handle rejects instead, the promise
    stays pending.  Any number of rounds above [length docs] is enough, and
    the handle is left where the pulling has left it. *)
Theorem map_collects_in_order {B} (fn : js.value -> B) fuel this (w : world)
    c h docs e h' :
  instances w !! this = Some c -> cursor c = Some h ->
  pulls h docs e h' -> (length docs < fuel)%nat ->
  map fuel (fun d => js.Resolved (fn d)) this w =
  Some (match e with
        | Ended => Settled (js.Resolved (fn <$> docs))
        | Failed => Pending
        end, update this (holding 0 h' c) w).
Proof.
  intros Hc Hh Hp Hfuel. unfold map.
  by rewrite (map_loop_pulls fn h docs e h' Hp fuel this w c []).
Qed.

(** X12. [forEach(fn)] on a realized cursor calls [fn] on exactly the
    truthy documents that the handle yields, in order, and resolves to
    [undefined] when the handle ends; it stays pending when the handle
    rejects. *)
Theorem forEach_visits_in_order (fn : js.value -> unit) fuel this (w : world)
    c h docs e h' :
  instances w !! this = Some c -> cursor c = Some h ->
  pulls h docs e h' -> (length docs < fuel)%nat ->
  forEach fuel (fun d => js.Resolved (fn d)) this w =
  Some (match e with
        | Ended => Settled (js.Resolved js.undefined)
        | Failed => Pending
        end, docs, update this (holding 0 h' c) w).
Proof.
  intros Hc Hh Hp Hfuel. unfold forEach.
  by rewrite (forEach_loop_pulls fn h docs e h' Hp fuel this w c []).
Qed.

(** X13. The promises of [map] and [forEach] are never rejected: whatever
    the cursor, the callback and the number of rounds, a loop that has
    stopped has resolved its promise or left it pending. *)
Theorem map_forEach_never_reject {B} fuel (fn : js.value -> js.outcome B)
    (g : js.value -> js.outcome unit) this (w : world) :
  match map fuel fn this w with
  | Some (Settled (js.Rejected _), _) => False
  | _ => True
  end /\
  match forEach fuel g this w with
  | Some (Settled (js.Rejected _), _, _) => False
  | _ => True
  end.
Proof.
  split.
  - destruct (map fuel fn this w) as [[p w']|] eqn:Hm; [|done].
    by destruct (map_loop_not_rejected _ _ _ _ _ _ _ Hm) as [->|[l ->]].
  - destruct (forEach fuel g this w) as [[[p seen] w']|] eqn:Hm; [|done].
    by destruct (forEach_loop_not_rejected _ _ _ _ _ _ _ _ Hm) as [->| ->].
Qed.

(** X14. Constructing a cursor takes the ten setters over, in every world:
    a setter called next, on whichever cursor, returns the new cursor and
    records the option on it, and the cursors that existed are as they
    were. *)
Theorem constructor_takes_setters_over factory (w : world) op data receiver :
  exists w',
    setter op data receiver (new factory w).2 =
      Some ((new factory w).1, w') /\
    instances w' = instances w ++ [mk factory 0 [(op, data)] [] None].
Proof.
  eexists. split.
  - unfold setter, new. simpl.
    rewrite lookup_app_r, Nat.sub_diag by done. simpl. done.
  - unfold update. simpl.
    rewrite insert_app_r_alt, Nat.sub_diag by done. done.
Qed.

(** X15. On the cursor constructed last, the value that a setter was
    called with last is the one that is recorded, and no option is recorded
    twice, so that the realization applies each option once; the handle,
    the flags and the count of factory calls are as before. *)
Theorem setter_last_value_wins l op data this (w : world) c :
  prototype w = Some this -> instances w !! this = Some c ->
  NoDup (_options c).*1 ->
  exists c',
    instances (invokes (sets (l ++ [(op, data)])) this w) !! this = Some c' /\
    NoDup (_options c').*1 /\
    (op, data) ∈ _options c' /\
    (forall v, (op, v) ∈ _options c' -> v = data) /\
    cursor c' = cursor c /\ _flags c' = _flags c /\
    factoryCalls c' = factoryCalls c.
Proof.
  intros Hp Hc Hnd. unfold sets. rewrite fmap_app, invokes_app.
  destruct (invokes_sets l this w c Hp Hc Hnd)
    as (c1 & Hc1 & Hp1 & Hnd1 & Hcur & Hcalls & Hfl).
  unfold sets in Hc1, Hp1. simpl.
  rewrite (setter_last op data _ this c1 Hp1 Hc1). simpl.
  eexists. split; [by apply lookup_update|]. simpl.
  assert (Hnd2 : NoDup (assign op data (_options c1)).*1)
    by by apply assign_NoDup.
  split_and!; try done; [apply elem_of_assign|].
  intros v Hv.
  pose proof (elem_of_assign op data (_options c1)) as Hd.
  apply list_elem_of_lookup in Hv as [i Hi].
  apply list_elem_of_lookup in Hd as [j Hj].
  assert (i = j) as ->.
  { eapply NoDup_lookup; [exact Hnd2| |];
      rewrite list_lookup_fmap; [by rewrite Hi|by rewrite Hj]. }
  congruence.
Qed.

(** X16. Configuring is lazy: the setters and [addCursorFlag], called any
    number of times on a cursor, never call a factory and never set or
    unset a handle, on any cursor. *)
Theorem configuring_never_realizes l this (w : world) i c :
  Forall configures l -> instances w !! i = Some c ->
  exists c', instances (invokes l this w) !! i = Some c' /\
    cursor c' = cursor c /\ factoryCalls c' = factoryCalls c /\
    cursorFactory c' = cursorFactory c.
Proof.
  intros Hl. revert w c. induction Hl as [|a l Ha Hl IH]; intros w c Hc; simpl.
  - by exists c.
  - destruct (invoke_configures a this w i c Ha Hc)
      as (c1 & Hc1 & Hcur1 & Hcalls1 & Hfac1).
    destruct (IH _ c1 Hc1) as (c' & Hc' & Hcur & Hcalls & Hfac).
    exists c'. split_and!; [done|congruence..].
Qed.

(** X17. A realization that fails is not remembered: the consuming call
    rejects and leaves the cursor unrealized with the factory called once,
    and the call after it calls the factory again, applies the options and
    the flags to the new handle and keeps it. *)
Theorem failed_realization_is_retried m this (w : world) c h0 h1 h2 :
  instances w !! this = Some c -> cursor c = None -> fails c ->
  cursorFactory c (S (factoryCalls c)) = js.Resolved (Some h0) ->
  apply_options (_options c) h0 = Some h1 ->
  add_flags (_flags c) h1 = Some h2 ->
  (exists err, next this w = (js.Rejected err, update this (failed c) w)) /\
  call m this w = update this (failed c) w /\
  getCursor this (call m this w) =
    (js.Resolved (h_on_close h2),
     update this (holding 2 (h_on_close h2) c) w).
Proof.
  intros Hc Hh Hf Hfac Hopts Hflags.
  assert (Hcall : call m this w = update this (failed c) w).
  { destruct m; simpl;
      [unfold next|unfold hasNext|unfold toArray|unfold count|unfold explain
      |unfold rewind];
      match goal with
      | |- (then_ ?f _ _).2 = _ =>
          by destruct (then_fails f this w c Hc Hh Hf) as [err ->]
      end. }
  split_and!; [by apply then_fails|done|].
  rewrite Hcall.
  rewrite (getCursor_unrealized this _ (failed c) h0 h1 h2);
    [|by apply lookup_update|done..].
  by rewrite update_update.
Qed.

(** X18. An option set once the cursor is realized does not reach the
    driver's handle, which stays as it is; but [count()] and [size()]
    pass it to the driver with the others. *)
Theorem late_option_reaches_count_only op data this (w : world) c h :
  prototype w = Some this -> instances w !! this = Some c ->
  cursor c = Some h ->
  exists w' c',
    setter op data this w = Some (this, w') /\
    instances w' !! this = Some c' /\ cursor c' = Some h /\
    (count this w').1 = (h_count (assign op data (_options c)) h).1 /\
    (size this w').1 = (h_count (assign op data (_options c)) h).1.
Proof.
  intros Hp Hc Hh. rewrite (setter_last op data w this c Hp Hc).
  eexists _, _. split; [done|]. split; [by apply lookup_update|].
  split; [done|]. unfold count, size.
  assert (Hc' : instances
                  (update this
                     (mk (cursorFactory c) (factoryCalls c)
                         (assign op data (_options c)) (_flags c) (cursor c))
                     w) !! this =
                Some (mk (cursorFactory c) (factoryCalls c)
                         (assign op data (_options c)) (_flags c) (cursor c)))
    by by apply lookup_update.
  by rewrite !(then_realized _ this _ _ h Hc' Hh).
Qed.

End facts.

Local Abbreviation three := [js.obj 1; js.obj 2; js.obj 3].

Lemma opened_pulls :
  pulls (MemCursor.mk three 0 [] [] 1 false false) three Ended
        (MemCursor.mk three 3 [] [] 1 true false).
Proof.
  repeat (eapply pulls_more; [by vm_compute|by vm_compute|by vm_compute|]).
  eapply pulls_end; by vm_compute.
Defined.

(** X11 on a cursor over three documents: [map] resolves to the three
    images, and leaves the handle closed behind the last document. *)
Lemma map_collects_in_order_witness :
  exists c,
    instances opened !! 0%nat = Some c /\
    cursor c = Some (MemCursor.mk three 0 [] [] 1 false false) /\
    (length three < 5)%nat /\
    map 5 (fun d => js.Resolved [d]) 0 opened =
    Some (Settled (js.Resolved [[js.obj 1]; [js.obj 2]; [js.obj 3]]),
          update 0 (holding 0 (MemCursor.mk three 3 [] [] 1 true false) c)
                 opened).
Proof.
  eexists. split; [by vm_compute|]. split; [by vm_compute|].
  split; [simpl; lia|].
  eapply (map_collects_in_order (fun d => [d]) 5 0 opened _ _ three Ended);
    [by vm_compute|by vm_compute|exact opened_pulls|simpl; lia].
Defined.

(** X12 on the same cursor. *)
Lemma forEach_visits_in_order_witness :
  exists c,
    instances opened !! 0%nat = Some c /\
    cursor c = Some (MemCursor.mk three 0 [] [] 1 false false) /\
    (length three < 4)%nat /\
    forEach 4 (fun _ => js.Resolved tt) 0 opened =
    Some (Settled (js.Resolved js.undefined), three,
          update 0 (holding 0 (MemCursor.mk three 3 [] [] 1 true false) c)
                 opened).
Proof.
  eexists. split; [by vm_compute|]. split; [by vm_compute|].
  split; [simpl; lia|].
  eapply (forEach_visits_in_order (fun _ => tt) 4 0 opened _ _ three Ended);
    [by vm_compute|by vm_compute|exact opened_pulls|simpl; lia].
Defined.

(** X15 on the configured cursor: [limit(1).skip(2).limit(7)] after
    [limit(5)] leaves the limit at 7. *)
Lemma setter_last_value_wins_witness :
  exists c c',
    prototype configured = Some 0%nat /\
    instances configured !! 0%nat = Some c /\ NoDup (_options c).*1 /\
    instances (invokes (sets ([(limit, js.number 1); (skip, js.number 2)] ++
                              [(limit, js.number 7)])) 0 configured) !! 0%nat
      = Some c' /\
    _options c' = [(limit, js.number 7); (skip, js.number 2)] /\
    (forall v, (limit, v) ∈ _options c' -> v = js.number 7).
Proof.
  eexists _, _. split; [by vm_compute|]. split; [by vm_compute|].
  split; [vm_compute; apply NoDup_singleton|].
  split; [by vm_compute|]. split; [by vm_compute|].
  edestruct (setter_last_value_wins
               [(limit, js.number 1); (skip, js.number 2)] limit (js.number 7)
               0 configured)
    as (c' & Hc' & _ & _ & Hv & _);
    [by vm_compute|by vm_compute|vm_compute; apply NoDup_singleton|].
  vm_compute in Hc'. injection Hc' as <-. exact Hv.
Defined.

(** X16 on two cursors: configuring the first leaves both unrealized. *)
Lemma configuring_never_realizes_witness :
  exists c c',
    Forall configures [Set_ limit (js.number 5);
                       AddCursorFlag "tailable" (js.boolean true)] /\
    instances two_cursors !! 1%nat = Some c /\
    instances (invokes [Set_ limit (js.number 5);
                        AddCursorFlag "tailable" (js.boolean true)] 0
                       two_cursors) !! 1%nat = Some c' /\
    cursor c' = None /\ factoryCalls c' = 0%nat.
Proof.
  assert (Hl : Forall (configures (Flag:=string))
                 [Set_ limit (js.number 5);
                  AddCursorFlag "tailable" (js.boolean true)])
    by (repeat constructor).
  edestruct (configuring_never_realizes
               [Set_ limit (js.number 5);
                AddCursorFlag "tailable" (js.boolean true)] 0 two_cursors 1)
    as (c' & Hc' & Hcur & Hcalls & _); [exact Hl|by vm_compute|].
  eexists _, c'. split; [exact Hl|]. split; [by vm_compute|].
  split; [exact Hc'|]. split; [exact Hcur|exact Hcalls].
Defined.

(** X17 on a cursor whose factory is rejected once: [next()] rejects, and
    the [getCursor()] after it has the limit applied to a new handle. *)
Lemma failed_realization_is_retried_witness :
  exists c h0 h1 h2,
    instances unlucky !! 0%nat = Some c /\ cursor c = None /\ fails c /\
    cursorFactory c (S (factoryCalls c)) = js.Resolved (Some h0) /\
    apply_options (_options c) h0 = Some h1 /\
    add_flags (_flags c) h1 = Some h2 /\
    MemCursor.applied h2 = [(limit, js.number 5)] /\
    ((exists err,
        next 0 unlucky = (js.Rejected err, update 0 (failed c) unlucky)) /\
     call Next 0 unlucky = update 0 (failed c) unlucky /\
     getCursor 0 (call Next 0 unlucky) =
       (js.Resolved (h_on_close h2),
        update 0 (holding 2 (h_on_close h2) c) unlucky)).
Proof.
  eexists _, _, _, _.
  split; [by vm_compute|]. split; [by vm_compute|]. split; [by vm_compute|].
  split; [by vm_compute|]. split; [by vm_compute|]. split; [by vm_compute|].
  split; [by vm_compute|].
  eapply (failed_realization_is_retried Next 0 unlucky); by vm_compute.
Defined.

(** X18 on the realized cursor: [limit(2)] leaves the handle with no
    option applied. *)
Lemma late_option_reaches_count_only_witness :
  exists c h w' c',
    prototype opened = Some 0%nat /\ instances opened !! 0%nat = Some c /\
    cursor c = Some h /\
    setter limit (js.number 2) 0 opened = Some (0%nat, w') /\
    instances w' !! 0%nat = Some c' /\ cursor c' = Some h /\
    MemCursor.applied h = [] /\ _options c' = [(limit, js.number 2)].
Proof.
  edestruct (late_option_reaches_count_only limit (js.number 2) 0 opened)
    as (w' & c' & Hs & Hc' & Hh & _);
    [by vm_compute|by vm_compute|by vm_compute|].
  eexists _, _, w', c'. split; [by vm_compute|]. split; [by vm_compute|].
  split; [by vm_compute|]. split; [exact Hs|]. split; [exact Hc'|].
  split; [exact Hh|]. split; [by vm_compute|].
  vm_compute in Hs. injection Hs as <-. vm_compute in Hc'.
  by injection Hc' as <-.
Defined.

End PullingFacts.

(** ** Properties of the collection *)

Module CollectionFacts.

Import Collection.

Lemma get_insert_eq k v (o : object) : get k (Some (<[k := v]> o)) = v.
Proof.
  change (default js.undefined (<[k := v]> o !! k) = v).
  by rewrite lookup_insert_eq.
Qed.

Lemma with_id_truthy fresh doc :
  js.truthy (get "_id" (Some (with_id fresh doc))) = true.
Proof.
  unfold with_id.
  destruct (js.truthy (get "_id" (Some doc))) eqn:Hid; simpl; [done|].
  by rewrite get_insert_eq.
Qed.

Lemma with_id_rest fresh doc :
  delete "_id" (with_id fresh doc) = delete "_id" doc.
Proof.
  unfold with_id. destruct (js.truthy (get "_id" (Some doc))); simpl;
    [done|apply delete_insert_eq].
Qed.

Lemma with_id_bulk fresh doc : with_id fresh doc = Bulk.with_id fresh doc.
Proof.
  unfold with_id, Bulk.with_id, js.or, get. simpl.
  destruct (doc !! "_id") as [v|] eqn:Hv; simpl; [|done].
  destruct (js.truthy v); simpl; [|done]. by rewrite insert_id.
Qed.

Lemma with_ids_spec docs fresh heap :
  length (with_ids fresh docs heap) = length heap /\
  forall r doc, heap !! r = Some doc ->
    exists doc', with_ids fresh docs heap !! r = Some doc' /\
      delete "_id" doc' = delete "_id" doc /\
      (js.truthy (get "_id" (Some doc)) = true -> doc' = doc) /\
      (r ∈ docs -> js.truthy (get "_id" (Some doc')) = true) /\
      (r ∉ docs -> doc' = doc).
Proof.
  revert fresh heap. induction docs as [|r0 docs IH]; intros fresh heap.
  - split; [done|]. intros r doc Hr. exists doc.
    split_and!; try done. by intros ?%elem_of_nil.
  - cbn [with_ids].
    destruct (js.truthy (get "_id" (heap !! r0))) eqn:Hid; simpl.
    + destruct (IH fresh heap) as [Hlen Hall]. split; [done|].
      intros r doc Hr.
      destruct (Hall r doc Hr) as (doc' & Hr' & Hrest & Hkeep & Hin & Hout).
      exists doc'. split_and!; try done.
      * intros [->|Hd]%elem_of_cons; [|by apply Hin].
        rewrite Hr in Hid. by rewrite (Hkeep Hid).
      * intros Hn. apply Hout. intros Hd. apply Hn. by right.
    + destruct (IH (S fresh)
                   (alter (fun doc => <["_id" := js.oid fresh]> doc) r0 heap))
        as [Hlen Hall].
      split; [by rewrite Hlen, length_alter|].
      intros r doc Hr. destruct (decide (r = r0)) as [->|Hne].
      * destruct (Hall r0 (<["_id" := js.oid fresh]> doc))
          as (doc' & Hr' & Hrest & Hkeep & Hin & Hout);
          [by rewrite list_lookup_alter_eq, Hr|].
        exists doc'. split_and!; try done.
        -- by rewrite Hrest, delete_insert_eq.
        -- intros Ht. rewrite Hr in Hid. congruence.
        -- intros _. rewrite Hkeep; by rewrite get_insert_eq.
        -- intros Hn. exfalso. apply Hn. by left.
      * destruct (Hall r doc)
          as (doc' & Hr' & Hrest & Hkeep & Hin & Hout);
          [by rewrite list_lookup_alter_ne|].
        exists doc'. split_and!; try done.
        -- intros [->|Hd]%elem_of_cons; [done|by apply Hin].
        -- intros Hn. apply Hout. intros Hd. apply Hn. by right.
Qed.

Section facts.

Context {M H Flag : Type} `{EqDecision Flag} `{FindCursor H Flag}
        `{MongoCollection M H}.

Local Abbreviation world := (@Cursor.world H Flag).
Local Abbreviation unavailable := (@js.Resolved (option M) None).

Lemma optional_spec {R A} (m : M) (method : M -> js.outcome R * M)
    (g : option R -> A) :
  optional (Some m) method g =
  (settle (fun r => g (Some r)) (method m).1, Some (method m).2).
Proof. unfold optional. by destruct (method m) as [[r|err] m']. Qed.

(** [insert] of a document that is no array is [insertOne], which is how
    [save] is written above. *)
Lemma insert_single fresh doc opts (conn : js.outcome (option M)) heap :
  insert fresh (inl doc) opts conn heap =
  (settle inl (insertOne fresh doc opts conn).1,
   (insertOne fresh doc opts conn).2, heap).
Proof. unfold insert. by destruct (insertOne fresh doc opts conn). Qed.

Lemma insert_array fresh docs opts (conn : js.outcome (option M)) heap :
  insert fresh (inr docs) opts conn heap =
  (settle inr (insertMany fresh docs opts conn heap).1.1,
   (insertMany fresh docs opts conn heap).1.2,
   (insertMany fresh docs opts conn heap).2).
Proof.
  unfold insert. by destruct (insertMany fresh docs opts conn heap) as [[a m] h].
Qed.

Lemma new_lookup factory (w : world) :
  Cursor.instances (Cursor.new factory w).2 !! (Cursor.new factory w).1 =
  Some (Cursor.mk factory 0 [] [] None).
Proof.
  unfold Cursor.new. simpl. by rewrite lookup_app_r, Nat.sub_diag.
Qed.

(** X19. A connection that could not be had (the connect promise resolves
    to [undefined]) makes no two methods alike: [find] and [count] resolve
    to [undefined] and [isCapped] to [false]; the inserts resolve to the
    documents, identified, as if they had been written; [update] and
    [remove] resolve to a result whose [ok] and [n] are [undefined];
    [rename], [findOne] and [aggregate] reject with a [TypeError]. *)
Theorem unavailable_connection query projection opts fresh doc docs heap q u
    ropts name pipeline (w : world) :
  find query projection opts unavailable = (js.Resolved None, None) /\
  count query unavailable = (js.Resolved None, None) /\
  isCapped unavailable = (js.Resolved false, None) /\
  insertOne fresh doc opts unavailable =
    (js.Resolved (with_id fresh doc), None) /\
  (insertMany fresh docs opts unavailable heap).1 =
    (js.Resolved docs, None) /\
  update q u opts unavailable =
    (js.Resolved {[ "ok" := js.undefined; "n" := js.undefined ]}, None) /\
  remove query ropts unavailable =
    (js.Resolved {[ "ok" := js.undefined; "n" := js.undefined ]}, None) /\
  rename name opts unavailable = (js.Rejected js.TypeError, None) /\
  (findOne query projection opts (fun _ => unavailable) w).1 =
    js.Rejected js.TypeError /\
  (aggregate pipeline opts (fun _ => unavailable) w).1 =
    js.Rejected js.TypeError.
Proof.
  split_and!; try done.
  - unfold findOne, findAsCursor.
    destruct (Cursor.new _ w) as [this w1] eqn:Hnew.
    pose proof (new_lookup (find_factory query projection opts
                              (fun _ => unavailable)) w) as Hl.
    rewrite Hnew in Hl. simpl in Hl.
    unfold Cursor.next, Cursor.then_, Cursor.getCursor. by rewrite Hl.
  - unfold aggregate, aggregateAsCursor.
    destruct (Cursor.new _ w) as [this w1] eqn:Hnew.
    pose proof (new_lookup (aggregate_factory pipeline opts
                              (fun _ => unavailable)) w) as Hl.
    rewrite Hnew in Hl. simpl in Hl.
    unfold Cursor.toArray, Cursor.then_, Cursor.getCursor. by rewrite Hl.
Qed.

Local Abbreviation refused err := (@js.Rejected (option M) err).

(** X20. A connection that is refused (the connect promise rejects) is
    reported by every method alike: each rejects with the error of the
    connection, and the documents of [insertMany] have been given their
    identifiers all the same. *)
Theorem refused_connection err query projection opts fresh doc docs heap q u
    ropts name pipeline (w : world) :
  find query projection opts (refused err) = (js.Rejected err, None) /\
  count query (refused err) = (js.Rejected err, None) /\
  isCapped (refused err) = (js.Rejected err, None) /\
  insertOne fresh doc opts (refused err) = (js.Rejected err, None) /\
  insertMany fresh docs opts (refused err) heap =
    (js.Rejected err, None, with_ids fresh docs heap) /\
  update q u opts (refused err) = (js.Rejected err, None) /\
  save fresh doc opts (refused err) = (js.Rejected err, None) /\
  remove query ropts (refused err) = (js.Rejected err, None) /\
  rename name opts (refused err) = (js.Rejected err, None) /\
  (findOne query projection opts (fun _ => refused err) w).1 =
    js.Rejected err /\
  (aggregate pipeline opts (fun _ => refused err) w).1 = js.Rejected err.
Proof.
  split_and!; try done.
  - unfold save. by destruct (js.truthy (get "_id" (Some doc))).
  - unfold findOne, findAsCursor.
    destruct (Cursor.new _ w) as [this w1] eqn:Hnew.
    pose proof (new_lookup (find_factory query projection opts
                              (fun _ => refused err)) w) as Hl.
    rewrite Hnew in Hl. simpl in Hl.
    unfold Cursor.next, Cursor.then_, Cursor.getCursor. by rewrite Hl.
  - unfold aggregate, aggregateAsCursor.
    destruct (Cursor.new _ w) as [this w1] eqn:Hnew.
    pose proof (new_lookup (aggregate_factory pipeline opts
                              (fun _ => refused err)) w) as Hl.
    rewrite Hnew in Hl. simpl in Hl.
    unfold Cursor.toArray, Cursor.then_, Cursor.getCursor. by rewrite Hl.
Qed.

(** X21. [insertOne] on a collection that is there: the driver is asked
    for one insert, of the document that [Bulk.insert] would queue, with
    the options given laid over [writeOpts]; the promise resolves to that
    document, whatever the driver resolves to, and rejects when the driver
    rejects.  The document is the caller's if its [_id] is truthy, and
    else the caller's with a new [_id]; either way its [_id] is truthy. *)
Theorem insertOne_identifies fresh doc opts (m : M) :
  let doc' := Bulk.with_id fresh doc in
  let asked := m_insertOne doc' (default ∅ opts ∪ writeOpts) m in
  insertOne fresh doc opts (js.Resolved (Some m)) =
    (settle (fun _ => doc') asked.1, Some asked.2) /\
  js.truthy (get "_id" (Some doc')) = true /\
  doc' = if js.truthy (get "_id" (Some doc)) then doc
         else <["_id" := js.oid fresh]> doc.
Proof.
  simpl. rewrite <- with_id_bulk. split_and!.
  - unfold insertOne, then_, optional, assign_.
    by destruct (m_insertOne _ _ m) as [[[]|err] m'].
  - apply with_id_truthy.
  - unfold with_id. by destruct (js.truthy (get "_id" (Some doc))).
Qed.

(** X22. [insertMany] gives an identifier to the listed documents that
    have none, and to nothing else: afterwards every listed document has a
    truthy [_id]; a document that had one, or that is not listed, is as it
    was; no document has lost or changed another field.  The driver, when
    there is one, is asked for one insert of the listed documents as they
    are then, and the promise resolves to the caller's array. *)
Theorem insertMany_identifies fresh docs opts conn heap :
  let heap' := (insertMany fresh docs opts conn heap).2 in
  heap' = with_ids fresh docs heap /\
  length heap' = length heap /\
  (forall r doc, heap !! r = Some doc ->
     exists doc', heap' !! r = Some doc' /\
       delete "_id" doc' = delete "_id" doc /\
       (js.truthy (get "_id" (Some doc)) = true -> doc' = doc) /\
       (r ∈ docs -> js.truthy (get "_id" (Some doc')) = true) /\
       (r ∉ docs -> doc' = doc)) /\
  (forall m, conn = js.Resolved (Some m) ->
     let asked := m_insertMany (omap (fun r => heap' !! r) docs)
                               (default ∅ opts ∪ writeOpts) m in
     (insertMany fresh docs opts conn heap).1 =
       (settle (fun _ => docs) asked.1, Some asked.2)).
Proof.
  simpl. split; [done|].
  destruct (with_ids_spec docs fresh heap) as [Hlen Hall].
  split_and!; [done|done|].
  intros m ->. unfold then_, optional, assign_.
  by destruct (m_insertMany _ _ m) as [[[]|err] m'].
Qed.

(** X23. Whatever the document, the options and the connection, a [save]
    that resolves, resolves to the caller's document with a truthy [_id]:
    the one it had, or else a new one, and no other field changed. *)
Theorem save_resolves_identified fresh doc opts conn d (m' : option M) :
  save fresh doc opts conn = (js.Resolved d, m') ->
  js.truthy (get "_id" (Some d)) = true /\
  delete "_id" d = delete "_id" doc /\
  (js.truthy (get "_id" (Some doc)) = true -> d = doc).
Proof.
  unfold save. destruct (js.truthy (get "_id" (Some doc))) eqn:Hid.
  - destruct (update _ _ _ conn) as [[r|err] m1]; simpl; [|done].
    by intros [= <- <-].
  - unfold insertOne, then_, optional. intros Hs.
    assert (d = with_id fresh doc) as ->.
    { destruct conn as [[m|]|err]; [|congruence|done].
      destruct (m_insertOne _ _ m) as [[[]|err] m1]; congruence. }
    split_and!; [apply with_id_truthy|apply with_id_rest|done].
Qed.

Lemma get_union_ne k k' v (o : object) :
  k <> k' -> get k (Some (o ∪ {[ k' := v ]})) = get k (Some o).
Proof.
  intros Hne.
  change (default js.undefined ((o ∪ {[ k' := v ]}) !! k) =
          default js.undefined (o !! k)).
  rewrite lookup_union, lookup_singleton_ne by done.
  by destruct (o !! k).
Qed.

(** X24. [save] of a document that has a truthy [_id], on a collection
    that is there, asks the driver for one update and nothing else: of the
    documents selected by that [_id], setting the document's fields, with
    [upsert: true] unless the options say otherwise, and of many documents
    only if the options say [multi].  It resolves to the caller's document,
    not to the driver's result. *)
Theorem save_upserts_by_id fresh doc opts (m : M) :
  js.truthy (get "_id" (Some doc)) = true ->
  let options :=
    (default ∅ opts ∪ {[ "upsert" := js.boolean true ]}) ∪ writeOpts in
  let asked :=
    (if js.truthy (get "multi" opts) then m_updateMany else m_updateOne)
      (ById (get "_id" (Some doc))) (SetDoc doc) options m in
  save fresh doc opts (js.Resolved (Some m)) =
    (settle (fun _ => doc) asked.1, Some asked.2) /\
  options !! "upsert" =
    Some (default (js.boolean true) (opts ≫= fun o => o !! "upsert")).
Proof.
  intros Hid. simpl. split.
  - unfold save. rewrite Hid.
    unfold update, then_, optional, assign_, or_empty. simpl.
    rewrite get_union_ne by done.
    replace (get "multi" (Some (default ∅ opts))) with (get "multi" opts)
      by by destruct opts.
    destruct (js.truthy (get "multi" opts)).
    + by destruct (m_updateMany _ _ _ m) as [[r|err] m1].
    + by destruct (m_updateOne _ _ _ m) as [[r|err] m1].
  - rewrite <- (assoc_L (∪)). rewrite lookup_union.
    destruct opts as [o|]; simpl; [by destruct (o !! "upsert")|].
    by rewrite lookup_empty.
Qed.

(** X25. The forms of [remove] agree: a boolean second argument is the
    option [justOne], and none at all is [false].  [remove(query, true)]
    asks the driver for [deleteOne] and [remove(query)] for [deleteMany],
    both with [justOne] among the options, and the result is the driver's
    with [ok] and [n] added. *)
Theorem remove_flag_is_justOne query (b : bool) conn (m : M) :
  remove query (JustOne b) conn =
    remove query (Opts {[ "justOne" := js.boolean b ]}) conn /\
  remove query NoOpts conn = remove query (JustOne false) conn /\
  let asked :=
    (if b then m_deleteOne else m_deleteMany)
      query ({[ "justOne" := js.boolean b ]} ∪ writeOpts) m in
  remove query (JustOne b) (js.Resolved (Some m)) =
    (settle (fun r => <["n" := get "deletedCount" (Some r)]>
                        (<["ok" := get "acknowledged" (Some r)]> r))
            asked.1, Some asked.2).
Proof.
  split_and!; [by destruct b|done|].
  unfold remove, then_. rewrite optional_spec. by destruct b.
Qed.

Lemma then_world {A} (f : Cursor.t -> H -> js.outcome A * H) this
    (w : world) c :
  Cursor.instances w !! this = Some c ->
  exists c', (Cursor.then_ f this w).2 = Cursor.update this c' w.
Proof.
  intros Hc. unfold Cursor.then_, Cursor.getCursor. rewrite Hc.
  destruct (Cursor.cursor c) as [h|] eqn:Hh.
  - rewrite Hc. destruct (f c h) as [a h']. by eexists.
  - destruct (Cursor.cursorFactory c (Cursor.factoryCalls c))
      as [[h0|]|err]; [|by eexists..].
    destruct (Cursor.apply_options _ h0 ≫= Cursor.add_flags _) as [h2|];
      [|by eexists].
    rewrite CursorFacts.lookup_update by done.
    destruct (f _ _) as [a h']. simpl.
    rewrite CursorFacts.update_update. by eexists.
Qed.

(** X26. [findOne] on a collection that is there makes a new cursor over
    the driver's [find] with the projection laid under the options, and
    resolves to what the first [next()] of the driver's cursor resolves
    to.  No option is applied to that cursor, whichever setters were
    called before; the factory has been called once, and the cursor made
    is the one that the setters write to from now on. *)
Theorem findOne_first_document query projection opts connect (m : M)
    (w : world) :
  connect 0%nat = js.Resolved (Some m) ->
  let factory := find_factory query projection opts connect in
  let this := length (Cursor.instances w) in
  let h := h_on_close (m_find query (default ∅ opts ∪
                                     {[ "projection" := projection ]}) m) in
  let ended := h_closed h || h_killed h in
  findOne query projection opts connect w =
    ((if ended then js.Resolved js.null else (h_next h).1),
     Cursor.mkWorld
       (Cursor.instances w ++
        [Cursor.mk factory 1 [] []
                   (Some (if ended then h else (h_next h).2))])
       (Some this)).
Proof.
  intros Hconn. simpl. unfold findOne, findAsCursor.
  pose proof (new_lookup (find_factory query projection opts connect) w)
    as Hl.
  destruct (Cursor.new _ w) as [this w1] eqn:Hnew. simpl in Hl.
  unfold Cursor.next.
  set (h0 := m_find query (assign_ {[ "projection" := projection ]} opts) m).
  rewrite (CursorFacts.then_unrealized _ this w1 _ h0 h0 h0 Hl);
    [|done| |done|done].
  2:{ simpl. unfold find_factory. rewrite Hconn. done. }
  unfold Cursor.new in Hnew. injection Hnew as <- <-.
  unfold Cursor.update, CursorSpec.holding, assign_. simpl.
  rewrite insert_app_r_alt, Nat.sub_diag by done. simpl.
  by destruct (h_closed _ || h_killed _).
Qed.

(** X27. After a [findOne], whatever it settled to, the setters of every
    cursor made before are lost: called on such a cursor, a setter returns
    the cursor that [findOne] made and leaves the one it was called on as
    it was. *)
Theorem findOne_takes_setters_over query projection opts connect (w : world)
    op data i :
  (i < length (Cursor.instances w))%nat ->
  exists w',
    Cursor.setter op data i (findOne query projection opts connect w).2 =
      Some (length (Cursor.instances w), w') /\
    Cursor.instances w' !! i = Cursor.instances w !! i.
Proof.
  intros Hi. unfold findOne, findAsCursor.
  pose proof (new_lookup (find_factory query projection opts connect) w)
    as Hl.
  destruct (Cursor.new _ w) as [this w1] eqn:Hnew. simpl in Hl.
  unfold Cursor.next.
  destruct (then_world
              (fun (_ : Cursor.t) cursor =>
                 if h_closed cursor || h_killed cursor
                 then (js.Resolved js.null, cursor)
                 else h_next cursor) this w1 _ Hl) as [c' ->].
  unfold Cursor.new in Hnew. injection Hnew as <- <-.
  unfold Cursor.setter, Cursor.update. simpl.
  rewrite list_lookup_insert_eq by (rewrite length_app; simpl; lia).
  simpl. eexists. split; [done|]. simpl.
  rewrite !list_lookup_insert_ne by lia.
  by rewrite lookup_app_l.
Qed.

End facts.

(** X28. The bulk that a collection initializes carries the collection's
    configuration to the store: whatever is accumulated into it, every
    command that it comes to hold has the [ordered] of the method that
    made the bulk, and the write concern of the options, or [{ w: 1 }]
    when they give none that is truthy. *)
Theorem bulk_carries_configuration name (ord : bool) opts l :
  opts <> BulkNull ->
  exists b0 b,
    (if ord then initializeOrderedBulkOp name opts
     else initializeUnorderedBulkOp name opts) = Some b0 /\
    BulkSpec.accumulate l b0 = Some b /\
    Forall (fun cmd =>
              Command.ordered cmd = ord /\
              Command.writeConcern cmd =
                match opts with
                | BulkOpts o => js.or (get "writeConcern" (Some o)) Bulk.w1
                | _ => Bulk.w1
                end)
           (Bulk.commands (Bulk.pushCurrentCmd b)).
Proof.
  intros Hopts.
  assert (exists wc,
            new_Bulk name ord opts = Some (Bulk.new name ord wc) /\
            js.or wc Bulk.w1 =
              match opts with
              | BulkOpts o => js.or (get "writeConcern" (Some o)) Bulk.w1
              | _ => Bulk.w1
              end) as (wc & Hnew & Hwc).
  { destruct opts as [| |o]; [by exists Bulk.w1|done|by eexists]. }
  destruct (BatchingFacts.tracks_accumulate _ l _ _
              (BatchingFacts.tracks_new name ord wc)) as (b & Hacc & Ht).
  exists (Bulk.new name ord wc), b. split_and!; [by destruct ord|done|].
  rewrite (BatchingFacts.tracks_commands _ _ _ Ht).
  apply Forall_fmap, Forall_forall. intros g _. simpl. by rewrite <- Hwc.
Qed.

(** *** The properties at concrete inputs *)

Local Abbreviation named_a := ({[ "name" := js.str "a" ]} : object).
Local Abbreviation there := (js.Resolved (Some MemCollection.two)).

(** X22 on an array that lists one document twice: the document gets one
    identifier, and the document that had one keeps it. *)
Lemma insertMany_identifies_witness :
  exists doc0 doc1,
    (insertMany 7 [0; 1; 0]%nat None there
                [named_a; <["_id" := js.number 5]> named_a]).2 =
      [doc0; doc1] /\
    doc0 = <["_id" := js.oid 7]> named_a /\
    doc1 = <["_id" := js.number 5]> named_a /\
    js.truthy (get "_id" (Some doc0)) = true /\
    (insertMany 7 [0; 1; 0]%nat None there
                [named_a; <["_id" := js.number 5]> named_a]).1 =
      (js.Resolved [0; 1; 0]%nat,
       Some (MemCollection.mk [js.obj 1; js.obj 2]
               [MemCollection.InsertMany [doc0; doc1; doc0] writeOpts])).
Proof.
  destruct (insertMany_identifies 7 [0; 1; 0]%nat None there
              [named_a; <["_id" := js.number 5]> named_a])
    as (Hheap & _ & Hall & Hasked).
  destruct (Hall 0%nat named_a) as (doc0 & Hd & _ & _ & Hin & _);
    [by vm_compute|].
  eexists _, _. split; [by vm_compute|]. split; [by vm_compute|].
  split; [by vm_compute|].
  split; [vm_compute in Hd; injection Hd as <-; apply Hin; by left|].
  rewrite (Hasked MemCollection.two eq_refl). by vm_compute.
Defined.

(** X23 on a document that has no [_id]. *)
Lemma save_resolves_identified_witness :
  exists d m',
    save 7 named_a None there = (js.Resolved d, m') /\
    js.truthy (get "_id" (Some d)) = true /\
    delete "_id" d = delete "_id" named_a.
Proof.
  eexists _, _. split; [by vm_compute|].
  edestruct (save_resolves_identified 7 named_a None there) as (Ht & Hr & _);
    [by vm_compute|].
  split; [exact Ht|exact Hr].
Defined.

(** X24 on options that say [multi] and [upsert: false]: the driver is
    asked for [updateMany], with no upsert. *)
Lemma save_upserts_by_id_witness :
  let doc := <["_id" := js.number 5]> named_a in
  let opts := Some ({[ "multi" := js.boolean true;
                       "upsert" := js.boolean false ]} : object) in
  js.truthy (get "_id" (Some doc)) = true /\
  exists options,
    save 7 doc opts there =
      (js.Resolved doc,
       Some (MemCollection.mk [js.obj 1; js.obj 2]
               [MemCollection.UpdateMany (ById (js.number 5)) (SetDoc doc)
                                         options])) /\
    options !! "upsert" = Some (js.boolean false).
Proof.
  simpl. split; [by vm_compute|].
  destruct (save_upserts_by_id 7 (<["_id" := js.number 5]> named_a)
              (Some ({[ "multi" := js.boolean true;
                        "upsert" := js.boolean false ]} : object))
              MemCollection.two) as [Hs Hu]; [by vm_compute|].
  eexists. split; [rewrite Hs; by vm_compute|exact Hu].
Defined.

(** X26 on a collection of two documents: [findOne] resolves to the
    first. *)
Lemma findOne_first_document_witness :
  (fun _ : nat => there) 0%nat = there /\
  (findOne js.undefined js.undefined None (fun _ => there)
           CursorSpec.two_cursors).1 = js.Resolved (js.obj 1).
Proof.
  split; [done|].
  rewrite (findOne_first_document js.undefined js.undefined None
             (fun _ => there) MemCollection.two CursorSpec.two_cursors
             eq_refl).
  by vm_compute.
Defined.

(** X27 on two cursors: [limit(5)] on the first, after a [findOne], goes
    to the third, which [findOne] made. *)
Lemma findOne_takes_setters_over_witness :
  (0 < length (Cursor.instances CursorSpec.two_cursors))%nat /\
  exists w',
    Cursor.setter limit (js.number 5) 0
      (findOne js.undefined js.undefined None (fun _ => there)
               CursorSpec.two_cursors).2 = Some (2%nat, w') /\
    Cursor.instances w' !! 0%nat =
      Cursor.instances CursorSpec.two_cursors !! 0%nat.
Proof.
  split; [simpl; lia|].
  destruct (findOne_takes_setters_over js.undefined js.undefined None
              (fun _ => there) CursorSpec.two_cursors limit (js.number 5) 0)
    as (w' & Hs & Hi); [simpl; lia|].
  exists w'. split; [exact Hs|exact Hi].
Defined.

(** X28 on an unordered bulk with a write concern of its own. *)
Lemma bulk_carries_configuration_witness :
  BulkOpts {[ "writeConcern" := js.obj 9 ]} <> BulkNull /\
  exists b0 b,
    initializeUnorderedBulkOp "users"
      (BulkOpts {[ "writeConcern" := js.obj 9 ]}) = Some b0 /\
    BulkSpec.accumulate
      [BulkSpec.DoInsert 0 ∅; BulkSpec.DoRemove (js.obj 1) false] b0 =
      Some b /\
    Forall (fun cmd => Command.ordered cmd = false /\
                       Command.writeConcern cmd = js.obj 9)
           (Bulk.commands (Bulk.pushCurrentCmd b)).
Proof.
  split; [done|].
  destruct (bulk_carries_configuration "users" false
              (BulkOpts {[ "writeConcern" := js.obj 9 ]})
              [BulkSpec.DoInsert 0 ∅; BulkSpec.DoRemove (js.obj 1) false])
    as (b0 & b & Hnew & Hacc & Hall); [done|].
  exists b0, b. split; [exact Hnew|]. split; [exact Hacc|exact Hall].
Defined.

End CollectionFacts.
